(** * ShadyTimes: the tide engine (scripts/tides.js) and the observation
      fetch of the DFO client (scripts/api.js), embedded and verified.

    Conventions of the embedding.
    - An instant (a JS [Date]) is its time value, an integer number of
      milliseconds since the epoch: [Z].
    - A height is a finite JS number.  Every finite binary64 value is a
      rational and [<], [<=], [>] on finite doubles are the comparisons of
      those rationals, so heights are [Q]; the literal [1.1] is read as the
      decimal it denotes.  Arithmetic on heights (only in the unit converter)
      is exact here; binary64 rounding is not modelled.
    - [null]/[undefined] in a field that otherwise holds a value is [None].
    - A [Map] keyed by numbers or strings is a [gmap]. *)

From Stdlib Require Import ZArith QArith Qround Lia Lqa List Sorted Ascii String.
From stdpp Require Import base list sorting gmap strings pretty.

Close Scope Q_scope.
Open Scope Z_scope.

(** ** Data model *)

(** One element of the arrays returned by the remote source: [eventDate]
    stands for [new Date(entry.eventDate).getTime()]. *)
Record RawSample := mkRaw {
  eventDate : Z;
  value : Q
}.

(** A row produced by [mergeTideData]. *)
Record TideEntry := mkEntry {
  time : Z;
  timeString : string;
  prediction : Q;
  observation : option Q
}.

(** The object built by [findAccessWindows]; [w_end] is the field [end]. *)
Record AccessWindow := mkWindow {
  start : Z;
  startTide : Q;
  entries : list TideEntry;
  w_end : Z;
  endTide : Q
}.

Inductive StatusKind := accessible_status | not_accessible | unknown_status.

(** The object returned by [getCurrentAccessStatus]; the [entry] field is
    missing from the object of the empty case, hence the option. *)
Record AccessStatus := mkStatus {
  accessible : bool;
  status : StatusKind;
  tide : option Q;
  entry : option TideEntry
}.

Inductive CountdownType := window_closing | window_opening.

Record Countdown := mkCountdown {
  type : CountdownType;
  ms : Z;
  window : AccessWindow
}.

Inductive Trend := rising | falling | unknown_trend.

Record HighLow := mkHighLow {
  high : option TideEntry;
  low : option TideEntry
}.

(** ** Comparisons and truthiness of numbers *)

Definition Qleb (x y : Q) : bool := Qle_bool x y.

(** [x < y] on numbers that are not NaN. *)
Definition Qltb (x y : Q) : bool :=
  match (x ?= y)%Q with Lt => true | _ => false end.

(** A number is falsy exactly when it is zero (NaN is not a height). *)
Definition truthy (x : Q) : bool := negb (Qeq_bool x 0).

(** [a || b] where [a] is a number or null/undefined and [b] a number. *)
Definition num_or (a : option Q) (b : Q) : Q :=
  match a with
  | Some v => if truthy v then v else b
  | None => b
  end.

(** [a || null]. *)
Definition num_or_null (a : option Q) : option Q :=
  match a with
  | Some v => if truthy v then Some v else None
  | None => None
  end.

(** [currentTime || new Date()]: a Date object is always truthy, so the
    clock is read only when the argument is missing. *)
Definition resolveNow (currentTime : option Z) (clock : Z) : Z :=
  match currentTime with
  | Some t => t
  | None => clock
  end.

(** ** findHighLowTides *)

Definition highlow_step (hl : TideEntry * TideEntry) (e : TideEntry)
  : TideEntry * TideEntry :=
  let '(hi, lo) := hl in
  let hi' := if Qltb (prediction hi) (prediction e) then e else hi in
  let lo' := if Qltb (prediction e) (prediction lo) then e else lo in
  (hi', lo').

Definition findHighLowTides (tideData : list TideEntry) : HighLow :=
  match tideData with
  | [] => {| high := None; low := None |}
  | first :: _ =>
      let '(hi, lo) := foldl highlow_step (first, first) tideData in
      {| high := Some hi; low := Some lo |}
  end.

(** ** getTideTrend *)

(** The [for] loop over [i], [i + 1]: the first adjacent pair that brackets
    [now], if any. *)
Fixpoint find_bracket (now : Z) (tideData : list TideEntry)
  : option (TideEntry * TideEntry) :=
  match tideData with
  | before :: ((after :: _) as rest) =>
      if (time before <=? now) && (now <? time after)
      then Some (before, after)
      else find_bracket now rest
  | _ => None
  end.

Definition getTideTrend (tideData : list TideEntry)
    (currentTime : option Z) (clock : Z) : Trend :=
  let now := resolveNow currentTime clock in
  match find_bracket now tideData with
  | None => unknown_trend
  | Some (before, after) =>
      if Qltb (prediction before) (prediction after) then rising else falling
  end.

(** ** findAccessWindows *)

Definition accessThreshold : Q := 1.1%Q.

(** A fresh [currentWindow] after its first [push] and the two
    assignments that follow it in the same branch. *)
Definition open_window (e : TideEntry) : AccessWindow :=
  {| start := time e; startTide := prediction e; entries := [e];
     w_end := time e; endTide := prediction e |}.

(** [entries.push(entry); end = entry.time; endTide = tide] on an
    existing window. *)
Definition extend_window (w : AccessWindow) (e : TideEntry) : AccessWindow :=
  {| start := start w; startTide := startTide w;
     entries := entries w ++ [e];
     w_end := time e; endTide := prediction e |}.

(** The body of the [forEach]; the state is [accessWindows] and
    [currentWindow]. *)
Definition window_step (st : list AccessWindow * option AccessWindow)
    (e : TideEntry) : list AccessWindow * option AccessWindow :=
  let '(accessWindows, currentWindow) := st in
  if Qleb (prediction e) accessThreshold then
    match currentWindow with
    | None => (accessWindows, Some (open_window e))
    | Some w => (accessWindows, Some (extend_window w e))
    end
  else
    match currentWindow with
    | Some w => (accessWindows ++ [w], None)
    | None => (accessWindows, None)
    end.

(** "Close any open window". *)
Definition close_open (st : list AccessWindow * option AccessWindow)
  : list AccessWindow :=
  match st with
  | (accessWindows, Some w) => accessWindows ++ [w]
  | (accessWindows, None) => accessWindows
  end.

Definition findAccessWindows (tideData : list TideEntry) : list AccessWindow :=
  close_open (foldl window_step ([], None) tideData).

(** ** getCurrentAccessStatus *)

(** The scan for the closest reading; [minDiff = None] is [Infinity]. *)
Definition closest_step (now : Z) (st : option TideEntry * option Z)
    (e : TideEntry) : option TideEntry * option Z :=
  let diff := Z.abs (time e - now) in
  match snd st with
  | None => (Some e, Some diff)
  | Some minDiff => if diff <? minDiff then (Some e, Some diff) else st
  end.

Definition find_closest (now : Z) (tideData : list TideEntry)
  : option TideEntry :=
  fst (foldl (closest_step now) (None, None) tideData).

Definition getCurrentAccessStatus (tideData : list TideEntry)
    (currentTime : option Z) (clock : Z) : AccessStatus :=
  let now := resolveNow currentTime clock in
  match find_closest now tideData with
  | None =>
      {| accessible := false; status := unknown_status;
         tide := None; entry := None |}
  | Some closest =>
      let t := num_or (observation closest) (prediction closest) in
      if Qleb t accessThreshold then
        {| accessible := true; status := accessible_status;
           tide := Some t; entry := Some closest |}
      else
        {| accessible := false; status := not_accessible;
           tide := Some t; entry := Some closest |}
  end.

(** ** getCountdown *)

Definition in_window (now : Z) (w : AccessWindow) : bool :=
  (start w <=? now) && (now <=? w_end w).

Definition starts_after (now : Z) (w : AccessWindow) : bool :=
  now <? start w.

Definition getCountdown (tideData : list TideEntry)
    (currentTime : option Z) (clock : Z) : option Countdown :=
  let now := resolveNow currentTime clock in
  let accessWindows := findAccessWindows tideData in
  match List.find (in_window now) accessWindows with
  | Some w =>
      Some {| type := window_closing; ms := w_end w - now; window := w |}
  | None =>
      match List.find (starts_after now) accessWindows with
      | Some w =>
          Some {| type := window_opening; ms := start w - now; window := w |}
      | None => None
      end
  end.

(** ** Unit converter: metersToFeet, formatHeight, parseHeight *)

Definition METERS_TO_FEET : Q := 3.28084%Q.

(** The product is exact here and rounded to binary64 in the source; the
    two differ where the exact product lies within a rounding error of a
    whole number of feet or of half an inch. *)
Definition metersToFeet (meters : Q) : Q := (meters * METERS_TO_FEET)%Q.

(** [Math.round]: the nearest integer, halves going up. *)
Definition Math_round (x : Q) : Z := Qfloor (x + (1 # 2))%Q.

(** Two decimal digits of a number below one hundred. *)
Definition two_digits (n : Z) : string :=
  pretty (n / 10) +:+ pretty (n mod 10).

(** [Number.prototype.toFixed(2)] below 1e21: the sign is taken off first,
    then the integer [n] with [n / 100] nearest to the number is printed
    with two decimals, the larger [n] on a tie.  The number is the rational
    given; the source rounds the binary64 value, which is the same number
    for heights that binary64 holds exactly, such as 1.5. *)
Definition toFixed2 (x : Q) : string :=
  let neg := Qltb x 0 in
  let a := if neg then (- x)%Q else x in
  let n := Qfloor (a * 100 + (1 # 2))%Q in
  (if neg then "-" else EmptyString)
    +:+ pretty (n / 100) +:+ "." +:+ two_digits (n mod 100).

Definition double_quote : string := String (Ascii.ascii_of_nat 34) EmptyString.

Definition formatHeight (meters : Q) (unit : string) : string :=
  if String.eqb unit "feet" then
    let totalFeet := metersToFeet meters in
    let feet := Qfloor totalFeet in
    let inches := Math_round ((totalFeet - inject_Z feet) * 12)%Q in
    pretty feet +:+ "' " +:+ pretty inches +:+ double_quote
  else
    toFixed2 meters +:+ "m".

(** [parseFloat] on the decimal literals: leading white space, an optional
    sign, digits with an optional fraction, an optional exponent; whatever
    follows is ignored.  [None] is NaN.  ([Infinity] is not a height.) *)
Definition digit_of (c : ascii) : option Z :=
  let n := Z.of_N (Ascii.N_of_ascii c) in
  if (48 <=? n) && (n <=? 57) then Some (n - 48) else None.

Fixpoint read_digits (s : list ascii) (acc : Z) (count : nat)
  : Z * nat * list ascii :=
  match s with
  | c :: s' =>
      match digit_of c with
      | Some d => read_digits s' (acc * 10 + d) (S count)
      | None => (acc, count, s)
      end
  | [] => (acc, count, s)
  end.

Definition is_space (c : ascii) : bool :=
  let n := Ascii.N_of_ascii c in
  ((9 <=? n) && (n <=? 13))%N || (n =? 32)%N.

Fixpoint skip_spaces (s : list ascii) : list ascii :=
  match s with
  | c :: s' => if is_space c then skip_spaces s' else s
  | [] => []
  end.

Definition read_sign (s : list ascii) : bool * list ascii :=
  match s with
  | "-"%char :: s' => (true, s')
  | "+"%char :: s' => (false, s')
  | _ => (false, s)
  end.

Definition read_exponent (s : list ascii) : Z :=
  match s with
  | c :: s' =>
      if (Ascii.eqb c "e") || (Ascii.eqb c "E") then
        let '(neg, s'') := read_sign s' in
        let '(e, count, _) := read_digits s'' 0 0%nat in
        match count with
        | O => 0
        | S _ => if neg then - e else e
        end
      else 0
  | [] => 0
  end.

Definition Qpow10 (e : Z) : Q := (inject_Z 10 ^ e)%Q.

Definition parseFloat (s : string) : option Q :=
  let '(neg, s1) := read_sign (skip_spaces (list_ascii_of_string s)) in
  let '(ip, ni, s2) := read_digits s1 0 0%nat in
  let '(fp, nf, s3) :=
    match s2 with
    | "."%char :: s2' => read_digits s2' 0 0%nat
    | _ => (0, 0%nat, s2)
    end in
  match (ni + nf)%nat with
  | O => None
  | S _ =>
      let mant := (inject_Z ip + inject_Z fp / Qpow10 (Z.of_nat nf))%Q in
      let v := (mant * Qpow10 (read_exponent s3))%Q in
      Some (if neg then (- v)%Q else v)
  end.

Definition parseHeight (v : string) (unit : string) : option Q :=
  if String.eqb unit "feet" then
    match parseFloat v with
    | Some feet => Some (feet / METERS_TO_FEET)%Q
    | None => None
    end
  else
    match parseFloat v with
    | Some cm => Some (cm / 100)%Q
    | None => None
    end.

(** ** filterQuarterHour and mergeTideData

    The host's time zone and locale enter through two functions: the
    offset of local time from UTC at an instant, in milliseconds, and the
    rendering of [toLocaleTimeString]. *)
Section Merger.
Variable LocalTZA : Z → Z.
Variable toLocaleTimeString : Z → string.

(** [Date.prototype.getMinutes]. *)
Definition getMinutes (t : Z) : Z := ((t + LocalTZA t) / 60000) mod 60.

Definition on_quarter_hour (t : Z) : bool :=
  let minutes := getMinutes t in
  (minutes =? 0) || (minutes =? 15) || (minutes =? 30) || (minutes =? 45).

Definition filterQuarterHour (data : list RawSample) : list RawSample :=
  List.filter (λ e, on_quarter_hour (eventDate e)) data.

(** [Math.floor(date.getTime() / (15 * 60 * 1000)) * (15 * 60 * 1000)]. *)
Definition bucket (t : Z) : Z :=
  t / (15 * 60 * 1000) * (15 * 60 * 1000).

Definition obsMap_step (m : gmap Z Q) (obs : RawSample) : gmap Z Q :=
  <[bucket (eventDate obs) := value obs]> m.

Definition merge_row (obsMap : gmap Z Q) (pred : RawSample) : TideEntry :=
  {| time := eventDate pred;
     timeString := toLocaleTimeString (eventDate pred);
     prediction := value pred;
     observation := num_or_null (obsMap !! bucket (eventDate pred)) |}.

Definition mergeTideData (predictions observations : list RawSample)
  : list TideEntry :=
  let filteredPredictions := filterQuarterHour predictions in
  let filteredObservations := filterQuarterHour observations in
  let obsMap := foldl obsMap_step ∅ filteredObservations in
  map (merge_row obsMap) filteredPredictions.
End Merger.

(** ** The DFO client: getCacheKey, isCacheValid, fetchObservations

    The function is asynchronous and talks to the clock, the module's cache
    and the network.  It is embedded with explicit state passing: the world
    holds the clock, the observations cache, the list of URLs requested so
    far and the console; the remote source is a function from the URL and
    the instant of the request to the time the request takes and its
    reply.  The clock stands still while the function runs synchronously
    and moves by the time of the request across the [await]; what other
    tasks do to the cache during the [await] is not modelled. *)

Record CacheEntry := mkCacheEntry {
  timestamp : Z;
  data : list RawSample
}.

Inductive Reply :=
| reply_ok (payload : list RawSample)
| reply_not_ok (code : Z) (statusText : string)
| reply_failed (message : string).

Inductive Outcome (A : Type) :=
| Resolved (a : A)
| Rejected (error : string).
Arguments Resolved {A} a.
Arguments Rejected {A} error.

Record World := mkWorld {
  clock : Z;
  cache_observations : gmap string CacheEntry;
  requests : list string;
  console : list string
}.

Definition API_BASE_URL : string :=
  "https://api-iwls.dfo-mpo.gc.ca/api/v1/stations".
Definition STATION_ID : string := "5cebf1e13d0f4a073c4bbf8c".

Definition CACHE_DURATION_observations : Z := 15 * 60 * 1000.

(** [s.split('T')[0]]. *)
Fixpoint before_T (s : string) : string :=
  match s with
  | EmptyString => EmptyString
  | String c s' => if Ascii.eqb c "T" then EmptyString else String c (before_T s')
  end.

Section DataSource.
(** [setHours(0, 0, 0, 0)], which is also
    [new Date(y, m, d, 0, 0, 0, 0)]: the local midnight that starts the
    calendar day of an instant. *)
Variable localMidnight : Z → Z.
(** [new Date(y, m, d, 23, 59, 59, 999)]. *)
Variable localEndOfDay : Z → Z.
Variable toISOString : Z → string.
Variable remote : string → Z → Z * Reply.

Definition getCacheKey (date : Z) : string := before_T (toISOString date).

Definition isCacheValid (cacheEntry : option CacheEntry) (maxAge : Z)
    (now : Z) : bool :=
  match cacheEntry with
  | None => false
  | Some c => now - timestamp c <? maxAge
  end.

Definition observations_url (date : Z) : string :=
  API_BASE_URL +:+ "/" +:+ STATION_ID
    +:+ "/data?time-series-code=wlo&from=" +:+ toISOString (localMidnight date)
    +:+ "&to=" +:+ toISOString (localEndOfDay date).

(** The part of [fetchObservations] from the [fetch] on. *)
Definition request_observations (date : Z) (cacheKey : string) (w : World)
  : Outcome (list RawSample) * World :=
  let url := observations_url date in
  let '(elapsed, reply) := remote url (clock w) in
  let now' := clock w + elapsed in
  let sent := requests w ++ [url] in
  match reply with
  | reply_ok payload =>
      (Resolved payload,
       {| clock := now';
          cache_observations :=
            <[cacheKey := {| timestamp := now'; data := payload |}]>
              (cache_observations w);
          requests := sent;
          console := console w |})
  | reply_not_ok code statusText =>
      let error := "API Error: " +:+ pretty code +:+ " " +:+ statusText in
      (Rejected error,
       {| clock := now'; cache_observations := cache_observations w;
          requests := sent;
          console :=
            console w ++ ["Error fetching observations: " +:+ error] |})
  | reply_failed message =>
      (Rejected message,
       {| clock := now'; cache_observations := cache_observations w;
          requests := sent;
          console :=
            console w ++ ["Error fetching observations: " +:+ message] |})
  end.

Definition fetchObservations (date : Z) (w : World)
  : Outcome (list RawSample) * World :=
  let today := localMidnight (clock w) in
  let dateToCheck := localMidnight date in
  if today <? dateToCheck then (Resolved [], w)
  else
    let cacheKey := getCacheKey date in
    let cached := cache_observations w !! cacheKey in
    if isCacheValid cached CACHE_DURATION_observations (clock w)
    then (Resolved (from_option data [] cached), w)
    else request_observations date cacheKey w.
End DataSource.

(** ** formatCountdown, filterDisplayWindow, getAccessibilityLevel *)

(** [a % b] on integers: the remainder has the sign of the dividend. *)
Definition js_rem (a b : Z) : Z := Z.rem a b.

(** The three numbers that [formatCountdown] prints. *)
Definition countdown_parts (ms : Z) : Z * Z * Z :=
  let totalSeconds := ms / 1000 in
  let hours := totalSeconds / 3600 in
  let minutes := js_rem totalSeconds 3600 / 60 in
  let seconds := js_rem totalSeconds 60 in
  (hours, minutes, seconds).

Definition formatCountdown (ms : Z) : string :=
  let '(hours, minutes, seconds) := countdown_parts ms in
  if 0 <? hours then pretty hours +:+ "h " +:+ pretty minutes +:+ "m"
  else if 0 <? minutes then pretty minutes +:+ "m " +:+ pretty seconds +:+ "s"
  else pretty seconds +:+ "s".

Section DisplayWindow.
Variable LocalTZA : Z → Z.

(** [Date.prototype.getHours]. *)
Definition getHours (t : Z) : Z := ((t + LocalTZA t) / 3600000) mod 24.

(** The defaults of the source are [startHour = 10] and [endHour = 22]. *)
Definition filterDisplayWindow (tideData : list TideEntry)
    (startHour endHour : Z) : list TideEntry :=
  List.filter
    (λ entry, let hour := getHours (time entry) in
              (startHour <=? hour) && (hour <? endHour))
    tideData.
End DisplayWindow.

(** The two strings returned are the ones of the status field. *)
Definition getAccessibilityLevel (tide : Q) : StatusKind :=
  if Qleb tide accessThreshold then accessible_status else not_accessible.

(** ** The DFO client, continued: fetchPredictions and clearCache

    The client state is the world of the observation fetch together with
    the second cache of the module. *)

Record Client := mkClient {
  net : World;
  cache_predictions : gmap string CacheEntry
}.

Definition CACHE_DURATION_predictions : Z := 24 * 60 * 60 * 1000.

Section DataSourcePredictions.
Variable localMidnight : Z → Z.
Variable localEndOfDay : Z → Z.
Variable toISOString : Z → string.
Variable remote : string → Z → Z * Reply.

Definition predictions_url (date : Z) : string :=
  API_BASE_URL +:+ "/" +:+ STATION_ID
    +:+ "/data?time-series-code=wlp&from=" +:+ toISOString (localMidnight date)
    +:+ "&to=" +:+ toISOString (localEndOfDay date).

(** The part of [fetchPredictions] from the [fetch] on. *)
Definition request_predictions (date : Z) (cacheKey : string) (c : Client)
  : Outcome (list RawSample) * Client :=
  let w := net c in
  let url := predictions_url date in
  let '(elapsed, reply) := remote url (clock w) in
  let now' := clock w + elapsed in
  let sent := requests w ++ [url] in
  match reply with
  | reply_ok payload =>
      (Resolved payload,
       {| net := {| clock := now';
                    cache_observations := cache_observations w;
                    requests := sent; console := console w |};
          cache_predictions :=
            <[cacheKey := {| timestamp := now'; data := payload |}]>
              (cache_predictions c) |})
  | reply_not_ok code statusText =>
      let error := "API Error: " +:+ pretty code +:+ " " +:+ statusText in
      (Rejected error,
       {| net := {| clock := now';
                    cache_observations := cache_observations w;
                    requests := sent;
                    console :=
                      console w ++ ["Error fetching predictions: " +:+ error] |};
          cache_predictions := cache_predictions c |})
  | reply_failed message =>
      (Rejected message,
       {| net := {| clock := now';
                    cache_observations := cache_observations w;
                    requests := sent;
                    console :=
                      console w ++ ["Error fetching predictions: " +:+ message] |};
          cache_predictions := cache_predictions c |})
  end.

Definition fetchPredictions (date : Z) (c : Client)
  : Outcome (list RawSample) * Client :=
  let cacheKey := getCacheKey toISOString date in
  let cached := cache_predictions c !! cacheKey in
  if isCacheValid cached CACHE_DURATION_predictions (clock (net c))
  then (Resolved (from_option data [] cached), c)
  else request_predictions date cacheKey c.

(** [fetchObservations] on the client state: the predictions cache is not
    in its reach. *)
Definition fetchObservations_on (date : Z) (c : Client)
  : Outcome (list RawSample) * Client :=
  let '(r, w) :=
    fetchObservations localMidnight localEndOfDay toISOString remote date
      (net c) in
  (r, {| net := w; cache_predictions := cache_predictions c |}).
End DataSourcePredictions.

Definition clearCache (c : Client) : Client :=
  {| net := {| clock := clock (net c); cache_observations := ∅;
               requests := requests (net c); console := console (net c) |};
     cache_predictions := ∅ |}.

(** Time that passes between two calls. *)
Definition later (d : Z) (w : World) : World :=
  {| clock := clock w + d; cache_observations := cache_observations w;
     requests := requests w; console := console w |}.

Definition later_on (d : Z) (c : Client) : Client :=
  {| net := later d (net c); cache_predictions := cache_predictions c |}.

(** ** ui.js: the row colours, the highlighted row and the duration of a
       window

    Only the computations are embedded; the DOM is not.  As in the unit
    converter the arithmetic on heights is exact. *)

(** [Math.max(...xs)]; [None] is [-Infinity], the value for no argument. *)
Definition Math_max (xs : list Q) : option Q :=
  foldl (λ m x, match m with
                | None => Some x
                | Some y => Some (if Qltb y x then x else y)
                end) None xs.

(** [Math.min(1, x)]. *)
Definition min_one (x : Q) : Q := if Qleb 1 x then 1%Q else x.

(** The three numbers that [getGradientColor] prints.  [accessibility] is
    compared with ['accessible'] only.  [position] is used in the last
    branch only; there the division is by a [range] that is not zero
    whenever [tide <= maxTide]. *)
Definition gradient_channels (tide : Q) (accessibility : StatusKind)
    (maxTide : Q) (rowIndex : nat) : Z * Z * Z :=
  let even := Nat.even rowIndex in
  match accessibility with
  | accessible_status =>
      let normalizedTide := (tide / accessThreshold)%Q in
      let greenValue := Math_round (100 + normalizedTide * 120)%Q in
      let whiteningValue := Math_round (normalizedTide * 100)%Q in
      let base := if even then 0 else 10 in
      (whiteningValue + base, greenValue, whiteningValue + base)
  | _ =>
      let range := (maxTide - accessThreshold)%Q in
      let position := min_one ((tide - accessThreshold) / range)%Q in
      if Qleb tide 1.5 then
        let orangePosition := ((tide - accessThreshold) / 0.4)%Q in
        let orangeValue := Math_round (200 - orangePosition * 50)%Q in
        let base := if even then 0 else -10 in
        (255, orangeValue + base, 100)
      else
        let blueValue := Math_round (210 + position * 45)%Q in
        let whiteValue := Math_round (255 - position * 40)%Q in
        let base := if even then 0 else -5 in
        (whiteValue + base, whiteValue + base, blueValue)
  end.

Definition getGradientColor (tide : Q) (accessibility : StatusKind)
    (maxTide : Q) (rowIndex : nat) : string :=
  let '(r, g, b) := gradient_channels tide accessibility maxTide rowIndex in
  "rgb(" +:+ pretty r +:+ ", " +:+ pretty g +:+ ", " +:+ pretty b +:+ ")".

(** The colour channels of a row of [renderTideTable]; there is no row, and
    no colour, when the table is empty. *)
Definition row_channels (tideData : list TideEntry) (index : nat)
    (entry : TideEntry) : option (Z * Z * Z) :=
  match Math_max (prediction <$> tideData) with
  | Some maxTide =>
      Some (gradient_channels (prediction entry)
              (getAccessibilityLevel (prediction entry)) maxTide index)
  | None => None
  end.

(** [isCurrentTime] of [renderTideTable], for the row [entry] at [index]. *)
Definition isCurrentTime (viewingToday : bool) (now : Z)
    (tideData : list TideEntry) (index : nat) (entry : TideEntry) : bool :=
  viewingToday && (time entry <=? now)
  && ((index =? length tideData - 1)%nat
      || match tideData !! S index with
         | Some next => now <? time next
         | None => false
         end).

(** The duration that [updateAccessWindows] prints for a window. *)
Definition duration_parts (w : AccessWindow) : Z * Z :=
  let durationMs := w_end w - start w in
  let hours := durationMs / (1000 * 60 * 60) in
  let minutes :=
    Math_round (inject_Z (js_rem durationMs (1000 * 60 * 60))
                / inject_Z (1000 * 60))%Q in
  (hours, minutes).

Definition durationStr (w : AccessWindow) : string :=
  let '(hours, minutes) := duration_parts w in
  if 0 <? hours then pretty hours +:+ "h " +:+ pretty minutes +:+ "m"
  else pretty minutes +:+ "m".

(** * Vocabulary of the specification *)

(** ** Windows *)

(** A sample is accessible when its prediction is at or below the
    threshold, and above it otherwise. *)
Definition at_or_below (e : TideEntry) : Prop :=
  (prediction e <= accessThreshold)%Q.

Definition above (e : TideEntry) : Prop :=
  (accessThreshold < prediction e)%Q.

(** The maximal runs of accessible samples of a series, in order: the
    series is a gap of samples above the threshold, then a non-empty run of
    accessible samples that ends with the series or just before a sample
    above the threshold, and so on. *)
Inductive MaximalRuns : list TideEntry → list (list TideEntry) → Prop :=
| runs_done gap :
    Forall above gap → MaximalRuns gap []
| runs_next gap run rest rs :
    Forall above gap →
    run ≠ [] →
    Forall at_or_below run →
    (∀ e, head rest = Some e → above e) →
    MaximalRuns rest rs →
    MaximalRuns (gap ++ run ++ rest) (run :: rs).

(** The window that a run of samples stands for: it starts at the first
    sample and ends at the last. *)
Definition window_of_run (run : list TideEntry) : option AccessWindow :=
  match run, last run with
  | first :: _, Some lst =>
      Some {| start := time first; startTide := prediction first;
              entries := run;
              w_end := time lst; endTide := prediction lst |}
  | _, _ => None
  end.

(** The windows produced from a state in which [w] is the open window. *)
Definition windows_from (w : AccessWindow) (s : list TideEntry)
  : list AccessWindow :=
  close_open (foldl window_step ([], Some w) s).

(** A series is ordered by time when every sample is at or after the one
    before it; strictly, when it is after it. *)
Fixpoint adjacent_all (r : Z → Z → bool) (s : list TideEntry) : bool :=
  match s with
  | a :: ((b :: _) as rest) => r (time a) (time b) && adjacent_all r rest
  | _ => true
  end.

Definition ordered_by_time (s : list TideEntry) : bool :=
  adjacent_all Z.leb s.

Definition strictly_ordered_by_time (s : list TideEntry) : bool :=
  adjacent_all Z.ltb s.

(** ** Scans that keep the first best element *)

(** The two scans of [findHighLowTides] and the scan of
    [getCurrentAccessStatus], one at a time: [better e cur] says that [e]
    replaces the current choice. *)
Definition pick {A} (better : A → A → bool) (cur e : A) : A :=
  if better e cur then e else cur.

Definition higher (e cur : TideEntry) : bool :=
  Qltb (prediction cur) (prediction e).

Definition lower (e cur : TideEntry) : bool :=
  Qltb (prediction e) (prediction cur).

(** [e] is strictly nearer to [now] than [cur]. *)
Definition nearer (now : Z) (e cur : TideEntry) : bool :=
  Z.abs (time e - now) <? Z.abs (time cur - now).

(** [b] is at position [i] of [l], nothing in [l] is better than [b], and
    [b] is better than everything before position [i]. *)
Definition first_best {A} (better : A → A → bool) (l : list A) (i : nat)
    (b : A) : Prop :=
  l !! i = Some b
  ∧ (∀ e, e ∈ l → better e b = false)
  ∧ (∀ k e, (k < i)%nat → l !! k = Some e → better b e = true).

(** ** Trend *)

(** [now] lies in the bracket from [a] to [b], closed on the left. *)
Definition brackets (now : Z) (a b : TideEntry) : Prop :=
  time a ≤ now < time b.

(** Strictly greater is rising, anything else falling. *)
Definition trend_of (a b : TideEntry) : Trend :=
  if Qltb (prediction a) (prediction b) then rising else falling.

(** ** Merger *)

(** The observation that the specification attaches to a prediction: the
    value of the last observation on the quarter-hour grid whose bucket is
    the bucket of the prediction. *)
Definition matching_observation (LocalTZA : Z → Z)
    (observations : list RawSample) (pred : RawSample) : option Q :=
  value <$>
    last (filter (λ o, bucket (eventDate o) = bucket (eventDate pred))
            (filterQuarterHour LocalTZA observations)).

(** ** Decimal digits *)

Definition is_digit (c : ascii) : Prop := is_Some (digit_of c).

Definition digit_val (c : ascii) : Z := default 0 (digit_of c).

(** The number that a string of digits stands for, read after [acc]. *)
Definition digits_value (acc : Z) (digs : list ascii) : Z :=
  foldl (λ a c, a * 10 + digit_val c) acc digs.

(** ** Scenarios *)

(** Instants of one day, and samples without observation. *)
Definition at_clock (h m : Z) : Z := (h * 60 + m) * 60 * 1000.

Definition sample (h m : Z) (label : string) (p : Q) : TideEntry :=
  {| time := at_clock h m; timeString := label; prediction := p;
     observation := None |}.

(** The window scenario of the specification: five samples from 8:00 to
    9:00, and the window expected for them. *)
Definition morning : list TideEntry :=
  [ sample 8 0 "08:00 AM" 1.3; sample 8 15 "08:15 AM" 1.05;
    sample 8 30 "08:30 AM" 0.9; sample 8 45 "08:45 AM" 1.0;
    sample 9 0 "09:00 AM" 1.2 ].

Definition morning_window : AccessWindow :=
  {| start := at_clock 8 15; startTide := 1.05;
     entries := [ sample 8 15 "08:15 AM" 1.05; sample 8 30 "08:30 AM" 0.9;
                  sample 8 45 "08:45 AM" 1.0 ];
     w_end := at_clock 8 45; endTide := 1.0 |}.

(** A second scenario with two windows: a single accessible sample at
    6:00, and a run from 6:30 to 6:45 that ends on a sample at exactly the
    threshold. *)
Definition dawn : list TideEntry :=
  [ sample 6 0 "06:00 AM" 1.0; sample 6 15 "06:15 AM" 1.3;
    sample 6 30 "06:30 AM" 0.9; sample 6 45 "06:45 AM" 1.1;
    sample 7 0 "07:00 AM" 1.4 ].

(** The trend scenarios of the specification: two samples a quarter of an
    hour apart. *)
Definition pair_of (p1 p2 : Q) : list TideEntry :=
  [sample 8 0 "08:00 AM" p1; sample 8 15 "08:15 AM" p2].

(** A row written by hand whose observation is a height of exactly zero,
    while the prediction for the same instant is 1.5 m. *)
Definition zero_observed : TideEntry :=
  {| time := at_clock 8 0; timeString := "08:00 AM"; prediction := 1.5;
     observation := Some 0%Q |}.

(** A host on UTC, and a fixed label for the time of day. *)
Definition utc (t : Z) : Z := 0.
Definition eight_am (t : Z) : string := "08:00 AM".

(** A host whose calendar days are the UTC days, a remote source that
    answers with no sample, and a world at noon of the first day with an
    empty cache. *)
Definition msPerDay : Z := 24 * 60 * 60 * 1000.
Definition utc_midnight (t : Z) : Z := t / msPerDay * msPerDay.
Definition utc_end_of_day (t : Z) : Z := utc_midnight t + msPerDay - 1.
Definition day_number (t : Z) : string :=
  "day" +:+ pretty (t / msPerDay) +:+ "T".
Definition silent_remote (url : string) (t : Z) : Z * Reply :=
  (120, reply_ok []).
Definition noon_world : World :=
  {| clock := 12 * 60 * 60 * 1000; cache_observations := ∅;
     requests := []; console := [] |}.

(** ** Vocabulary of the further properties *)

(** Raw samples in the order of their instants. *)
Fixpoint adjacent_raw (r : Z → Z → bool) (l : list RawSample) : bool :=
  match l with
  | a :: ((b :: _) as rest) =>
      r (eventDate a) (eventDate b) && adjacent_raw r rest
  | _ => true
  end.

Definition ordered_by_eventDate (l : list RawSample) : bool :=
  adjacent_raw Z.leb l.

(** The test of the window detector, as a function on samples. *)
Definition accessible_sample (e : TideEntry) : bool :=
  Qleb (prediction e) accessThreshold.
(** A remote source that is down, and a client at noon with empty
    caches. *)
Definition failing_remote (url : string) (t : Z) : Z * Reply :=
  (80, reply_not_ok 503 "Service Unavailable").

Definition noon_client : Client :=
  {| net := noon_world; cache_predictions := ∅ |}.


(** A merged morning: two predictions on the grid, the first one with an
    observation. *)
Definition merged_morning : list TideEntry :=
  mergeTideData utc eight_am
    [ {| eventDate := at_clock 8 0; value := 1.5 |};
      {| eventDate := at_clock 8 15; value := 1.0 |} ]
    [ {| eventDate := at_clock 8 0; value := 1.05 |} ].

(** * Properties *)

(** Closed comparisons of integers and rationals, settled by evaluation. *)
Ltac by_evaluation :=
  vm_compute; repeat split;
  solve [reflexivity | discriminate | intros; discriminate].

(** ** Comparisons *)

Lemma Qleb_true x y : Qleb x y = true ↔ (x <= y)%Q.
Proof. apply Qle_bool_iff. Qed.

Lemma Qleb_false x y : Qleb x y = false ↔ (y < x)%Q.
Proof.
  unfold Qleb. split.
  - intros H. apply Qnot_le_lt. intros Hle.
    apply Qle_bool_iff in Hle. congruence.
  - intros Hlt. destruct (Qle_bool x y) eqn:E; [|done].
    apply Qle_bool_iff in E. exfalso. by apply (Qlt_not_le _ _ Hlt).
Qed.

Lemma Qltb_true x y : Qltb x y = true ↔ (x < y)%Q.
Proof.
  unfold Qltb. rewrite Qlt_alt. destruct (x ?= y)%Q; split; congruence.
Qed.

Lemma Qltb_false x y : Qltb x y = false ↔ (y <= x)%Q.
Proof.
  split.
  - intros H. apply Qnot_lt_le. intros Hlt. apply Qltb_true in Hlt. congruence.
  - intros Hle. destruct (Qltb x y) eqn:E; [|done].
    apply Qltb_true in E. exfalso. by apply (Qlt_not_le _ _ E).
Qed.

Lemma above_not_below e : above e → at_or_below e → False.
Proof. unfold above, at_or_below. intros H1 H2. by apply (Qlt_not_le _ _ H1). Qed.

Lemma step_test_below e : Qleb (prediction e) accessThreshold = true ↔ at_or_below e.
Proof. apply Qleb_true. Qed.

Lemma step_test_above e : Qleb (prediction e) accessThreshold = false ↔ above e.
Proof. apply Qleb_false. Qed.

(** ** The window detector, read from the left *)

Lemma close_open_acc s acc cur :
  close_open (foldl window_step (acc, cur) s)
  = acc ++ close_open (foldl window_step ([], cur) s).
Proof.
  revert acc cur. induction s as [|e s IH]; intros acc cur; simpl.
  - destruct cur; simpl; by rewrite ?app_nil_r.
  - destruct (Qleb (prediction e) accessThreshold), cur as [w|]; try apply IH.
    rewrite (IH (acc ++ [w])), (IH ([] ++ [w])). by rewrite <- app_assoc.
Qed.

Lemma faw_nil : findAccessWindows [] = [].
Proof. reflexivity. Qed.

Lemma faw_cons_above e s :
  above e → findAccessWindows (e :: s) = findAccessWindows s.
Proof.
  intros H. apply step_test_above in H. unfold findAccessWindows. simpl.
  by rewrite H.
Qed.

Lemma faw_cons_below e s :
  at_or_below e → findAccessWindows (e :: s) = windows_from (open_window e) s.
Proof.
  intros H. apply step_test_below in H. unfold findAccessWindows, windows_from.
  simpl. by rewrite H.
Qed.

Lemma windows_from_nil w : windows_from w [] = [w].
Proof. reflexivity. Qed.

Lemma windows_from_below w e s :
  at_or_below e → windows_from w (e :: s) = windows_from (extend_window w e) s.
Proof.
  intros H. apply step_test_below in H. unfold windows_from. simpl.
  by rewrite H.
Qed.

Lemma windows_from_above w e s :
  above e → windows_from w (e :: s) = w :: findAccessWindows s.
Proof.
  intros H. apply step_test_above in H. unfold windows_from, findAccessWindows.
  simpl. rewrite H. by rewrite close_open_acc.
Qed.

Lemma sample_cases e : {at_or_below e} + {above e}.
Proof.
  destruct (Qleb (prediction e) accessThreshold) eqn:E.
  - left. by apply step_test_below.
  - right. by apply step_test_above.
Qed.

(** ** Maximal runs *)

Lemma runs_skip e s rs : above e → MaximalRuns s rs → MaximalRuns (e :: s) rs.
Proof.
  intros He H. destruct H as [gap Hgap | gap run rest rs Hgap Hne Hrun Hhd Hrest].
  - apply runs_done. by constructor.
  - change (e :: gap ++ run ++ rest) with ((e :: gap) ++ run ++ rest).
    apply runs_next; auto.
Qed.

Lemma head_above_cons e s x : above e → head (e :: s) = Some x → above x.
Proof. simpl. intros He [= <-]. exact He. Qed.

Lemma head_nil_above (x : TideEntry) : head (@nil TideEntry) = Some x → above x.
Proof. discriminate. Qed.

Lemma faw_runs s :
  MaximalRuns s (entries <$> findAccessWindows s)
  ∧ ∀ w, entries w ≠ [] → Forall at_or_below (entries w) →
         MaximalRuns (entries w ++ s) (entries <$> windows_from w s).
Proof.
  induction s as [|e s [IHa IHb]].
  - split.
    + rewrite faw_nil. apply runs_done. constructor.
    + intros w Hne Hall. rewrite windows_from_nil. simpl.
      change (entries w ++ []) with ([] ++ entries w ++ []).
      apply runs_next; auto using head_nil_above.
      apply runs_done. constructor.
  - split.
    + destruct (sample_cases e) as [Hb|Ha].
      * rewrite faw_cons_below by done.
        apply (IHb (open_window e)); simpl; [done | by repeat constructor].
      * rewrite faw_cons_above by done. by apply runs_skip.
    + intros w Hne Hall. destruct (sample_cases e) as [Hb|Ha].
      * rewrite windows_from_below by done.
        replace (entries w ++ e :: s)
          with (entries (extend_window w e) ++ s)
          by (simpl; by rewrite <- app_assoc).
        apply IHb; simpl.
        -- by destruct (entries w).
        -- apply Forall_app. split; [done | by repeat constructor].
      * rewrite windows_from_above by done. simpl.
        change (entries w ++ e :: s) with ([] ++ entries w ++ e :: s).
        apply runs_next; eauto using head_above_cons.
        by apply runs_skip.
Qed.

Lemma gap_unique g1 g2 (x1 x2 : list TideEntry) :
  Forall above g1 → Forall above g2 →
  (∀ e, head x1 = Some e → at_or_below e) →
  (∀ e, head x2 = Some e → at_or_below e) →
  x1 ≠ [] → x2 ≠ [] →
  g1 ++ x1 = g2 ++ x2 → g1 = g2 ∧ x1 = x2.
Proof.
  revert g2. induction g1 as [|a g1 IH]; intros [|b g2] H1 H2 Hx1 Hx2 N1 N2 E;
    simpl in E.
  - done.
  - exfalso. subst x1. apply (above_not_below b).
    + by inversion H2.
    + by apply Hx1.
  - exfalso. subst x2. apply (above_not_below a).
    + by inversion H1.
    + by apply Hx2.
  - injection E as -> E. inversion H1; inversion H2; subst.
    destruct (IH g2) as [-> ->]; auto.
Qed.

Lemma run_unique r1 r2 (t1 t2 : list TideEntry) :
  Forall at_or_below r1 → Forall at_or_below r2 →
  (∀ e, head t1 = Some e → above e) →
  (∀ e, head t2 = Some e → above e) →
  r1 ++ t1 = r2 ++ t2 → r1 = r2 ∧ t1 = t2.
Proof.
  revert r2. induction r1 as [|a r1 IH]; intros [|b r2] H1 H2 Ht1 Ht2 E;
    simpl in E.
  - done.
  - exfalso. subst t1. apply (above_not_below b).
    + by apply Ht1.
    + by inversion H2.
  - exfalso. subst t2. apply (above_not_below a).
    + by apply Ht2.
    + by inversion H1.
  - injection E as -> E. inversion H1; inversion H2; subst.
    destruct (IH r2) as [-> ->]; auto.
Qed.

Lemma head_app_run (run rest : list TideEntry) :
  Forall at_or_below run → run ≠ [] →
  ∀ e, head (run ++ rest) = Some e → at_or_below e.
Proof.
  intros Hall Hne e. destruct run as [|a run]; [done|]. simpl.
  intros [= <-]. by inversion Hall.
Qed.

Lemma app_run_not_nil (run rest : list TideEntry) : run ≠ [] → run ++ rest ≠ [].
Proof. by destruct run. Qed.

Lemma all_above_no_run gap g run rest :
  Forall above gap → run ≠ [] → Forall at_or_below run →
  gap = g ++ run ++ rest → False.
Proof.
  intros Hgap Hne Hrun ->. destruct run as [|a run]; [done|].
  apply (above_not_below a).
  - apply Forall_app in Hgap as [_ Hgap]. by inversion Hgap.
  - by inversion Hrun.
Qed.

Lemma runs_functional s rs1 rs2 :
  MaximalRuns s rs1 → MaximalRuns s rs2 → rs1 = rs2.
Proof.
  intros H1. revert rs2.
  induction H1 as [gap Hgap | gap run rest rs Hgap Hne Hrun Hhd Hrest IH];
    intros rs2 H2.
  - inversion H2 as [|g r t rs' ? ? ? ? ? E]; subst; [done|].
    exfalso. eapply (all_above_no_run (g ++ r ++ t)); eauto.
  - inversion H2 as [g Hg E|g r t rs' Hg Hn Hr Hh Ht E]; subst.
    + exfalso. eapply (all_above_no_run (gap ++ run ++ rest)); eauto.
    + assert (g = gap ∧ r ++ t = run ++ rest) as [-> E2]
        by (apply gap_unique;
            [done | done | by apply head_app_run | by apply head_app_run
            | by apply app_run_not_nil | by apply app_run_not_nil | done]).
      assert (r = run ∧ t = rest) as [-> ->] by (by apply run_unique).
      f_equal. by apply IH.
Qed.

(** ** The fields of a window follow from its entries *)

Lemma window_of_run_open e : window_of_run (entries (open_window e)) = Some (open_window e).
Proof. reflexivity. Qed.

Lemma window_of_run_extend w e :
  window_of_run (entries w) = Some w →
  window_of_run (entries (extend_window w e)) = Some (extend_window w e).
Proof.
  destruct w as [s st en we et]. unfold window_of_run, extend_window. simpl.
  destruct en as [|f r]; [done|].
  destruct (last (f :: r)); [|done]. intros [= <- <- _ _].
  change ((f :: r) ++ [e]) with (f :: (r ++ [e])). cbv iota.
  change (f :: r ++ [e]) with ((f :: r) ++ [e]) at 1.
  by rewrite last_snoc.
Qed.

Lemma faw_fields s :
  Forall (λ w, window_of_run (entries w) = Some w) (findAccessWindows s)
  ∧ ∀ w, window_of_run (entries w) = Some w →
         Forall (λ w, window_of_run (entries w) = Some w) (windows_from w s).
Proof.
  induction s as [|e s [IHa IHb]].
  - split; [constructor|]. intros w Hw. rewrite windows_from_nil. by repeat constructor.
  - split.
    + destruct (sample_cases e) as [Hb|Ha].
      * rewrite faw_cons_below by done. apply IHb, window_of_run_open.
      * by rewrite faw_cons_above.
    + intros w Hw. destruct (sample_cases e) as [Hb|Ha].
      * rewrite windows_from_below by done. by apply IHb, window_of_run_extend.
      * rewrite windows_from_above by done. by constructor.
Qed.

Lemma windows_determined (ws1 ws2 : list AccessWindow) :
  entries <$> ws1 = entries <$> ws2 →
  Forall (λ w, window_of_run (entries w) = Some w) ws1 →
  Forall (λ w, window_of_run (entries w) = Some w) ws2 →
  ws1 = ws2.
Proof.
  revert ws2. induction ws1 as [|a ws1 IH]; intros [|b ws2]; simpl; try done.
  intros [= E1 E2] H1 H2. inversion H1; inversion H2; subst.
  f_equal; [congruence | by apply IH].
Qed.

(** C1.  For every series, [findAccessWindows] returns exactly the maximal
    runs of consecutive samples whose prediction is at or below 1.1, each as
    the window that starts at the first and ends at the last sample of the
    run and lists the run as its entries: a list of windows is the result if
    and only if its entries are the maximal runs of the series in order and
    every window is the window of its entries.  A single qualifying sample
    forms a window on its own.  On the morning scenario the result is the one
    window from 8:15 to 8:45. *)
Theorem findAccessWindows_maximal_runs :
  (∀ series ws,
     findAccessWindows series = ws
     ↔ MaximalRuns series (entries <$> ws)
       ∧ Forall (λ w, window_of_run (entries w) = Some w) ws)
  ∧ (∀ e, at_or_below e → findAccessWindows [e] = [open_window e])
  ∧ findAccessWindows morning = [morning_window]
  ∧ start morning_window = at_clock 8 15
  ∧ w_end morning_window = at_clock 8 45.
Proof.
  split; [|split].
  - intros series ws. split.
    + intros <-. split; [apply faw_runs | apply faw_fields].
    + intros [Hruns Hfields]. apply windows_determined.
      * apply (runs_functional series); [apply faw_runs | done].
      * apply faw_fields.
      * done.
  - intros e He. rewrite faw_cons_below by done. apply windows_from_nil.
  - repeat split.
Qed.

Lemma faw_morning : findAccessWindows morning = [morning_window].
Proof. reflexivity. Qed.

Lemma findAccessWindows_maximal_runs_witness :
  MaximalRuns morning (entries <$> findAccessWindows morning)
  ∧ findAccessWindows [sample 8 30 "08:30 AM" 0.9]
    = [open_window (sample 8 30 "08:30 AM" 0.9)].
Proof.
  split.
  - exact (proj1 (proj1 (proj1 findAccessWindows_maximal_runs morning _) eq_refl)).
  - apply (proj1 (proj2 findAccessWindows_maximal_runs)).
    unfold at_or_below. simpl. unfold Qle. simpl. lia.
Defined.

(** ** Where the runs lie in the series *)

Lemma runs_position s rs :
  MaximalRuns s rs →
  ∀ r, r ∈ rs →
    ∃ pre post, s = pre ++ r ++ post
      ∧ r ≠ [] ∧ Forall at_or_below r
      ∧ (∀ e, last pre = Some e → above e)
      ∧ (∀ e, head post = Some e → above e).
Proof.
  induction 1 as [gap Hgap | gap run rest rs Hgap Hne Hrun Hhd Hrest IH];
    intros r Hr.
  - by apply elem_of_nil in Hr.
  - apply elem_of_cons in Hr as [-> | Hr].
    + exists gap, rest. repeat split; auto.
      intros e He. apply last_Some_elem_of in He.
      by apply (proj1 (Forall_forall _ _) Hgap).
    + destruct (IH r Hr) as (pre & post & -> & Hn & Hall & Hpre & Hpost).
      exists (gap ++ run ++ pre), post. repeat split; auto.
      * by rewrite <- !app_assoc.
      * intros e He. destruct pre as [|p pre] using rev_ind.
        -- exfalso. destruct r as [|a r]; [done|].
           apply (above_not_below a); [by apply Hhd | by inversion Hall].
        -- apply Hpre. rewrite !app_assoc, last_snoc in He.
           by rewrite last_snoc.
Qed.

Lemma runs_layout s rs :
  MaximalRuns s rs →
  ∀ i j ri rj, rs !! i = Some ri → rs !! j = Some rj → (i < j)%nat →
    ∃ pre mid post, s = pre ++ ri ++ mid ++ rj ++ post ∧ mid ≠ [].
Proof.
  induction 1 as [gap Hgap | gap run rest rs Hgap Hne Hrun Hhd Hrest IH];
    intros i j ri rj Hi Hj Hij.
  - done.
  - destruct j as [|j]; [lia|]. simpl in Hj. destruct i as [|i]; simpl in Hi.
    + injection Hi as <-.
      destruct (runs_position rest rs Hrest rj) as (pre & post & -> & Hn & Hall & _).
      { by eapply list_elem_of_lookup_2. }
      exists gap, pre, post. split; [done|]. intros ->.
      destruct rj as [|a rj]; [done|].
      apply (above_not_below a); [by apply Hhd | by inversion Hall].
    + destruct (IH i j ri rj) as (pre & mid & post & -> & Hmid); [done | done | lia |].
      exists (gap ++ run ++ pre), mid, post. split; [|done].
      by rewrite <- !app_assoc.
Qed.

(** ** Series ordered by time *)

Lemma adjacent_all_sorted (r : Z → Z → bool) (R : Z → Z → Prop) s :
  (∀ x y z, R x y → R y z → R x z) →
  (∀ x y, r x y = true → R x y) →
  adjacent_all r s = true →
  StronglySorted (λ a b, R (time a) (time b)) s.
Proof.
  intros Htrans Hr. induction s as [|a s IH]; intros Hs; [constructor|].
  destruct s as [|b s].
  - by repeat constructor.
  - simpl in Hs. apply andb_true_iff in Hs as [Hab Hs].
    specialize (IH Hs). constructor; [done|].
    constructor; [by apply Hr|].
    apply StronglySorted_inv in IH as [_ Hall].
    eapply Forall_impl; [exact Hall|]. simpl. intros c Hc.
    eapply Htrans; [by apply Hr | done].
Qed.

Lemma ordered_sorted s :
  ordered_by_time s = true → StronglySorted (λ a b, time a ≤ time b) s.
Proof.
  apply (adjacent_all_sorted Z.leb Z.le); intros; lia.
Qed.

Lemma strictly_ordered_sorted s :
  strictly_ordered_by_time s = true → StronglySorted (λ a b, time a < time b) s.
Proof.
  apply (adjacent_all_sorted Z.ltb Z.lt); intros; lia.
Qed.

Lemma sorted_across (R : TideEntry → TideEntry → Prop) pre ri mid rj post x y :
  StronglySorted R (pre ++ ri ++ mid ++ rj ++ post) →
  last ri = Some x → head rj = Some y → R x y.
Proof.
  intros Hs Hx Hy.
  apply StronglySorted_app_1_r in Hs.
  apply (StronglySorted_app_1_elem_of R ri (mid ++ rj ++ post)); [done | |].
  - by apply last_Some_elem_of.
  - apply elem_of_app. right. apply elem_of_app. left.
    destruct rj; simplify_eq/=. by left.
Qed.

Lemma sorted_within (R : TideEntry → TideEntry → Prop) pre run post x y :
  StronglySorted R (pre ++ run ++ post) →
  head run = Some x → last run = Some y → x = y ∨ R x y.
Proof.
  intros Hs Hx Hy.
  apply StronglySorted_app_1_r, StronglySorted_app_1_l in Hs.
  destruct run as [|a run]; simplify_eq/=.
  destruct run as [|b run] using rev_ind.
  - left. by simplify_eq/=.
  - right. change (x :: run ++ [b]) with ((x :: run) ++ [b]) in Hy.
    rewrite last_snoc in Hy. simplify_eq.
    apply StronglySorted_inv in Hs as [_ Hall].
    apply (proj1 (Forall_forall _ _) Hall). apply elem_of_app. right. by left.
Qed.

Lemma window_of_run_ends w :
  window_of_run (entries w) = Some w →
  ∃ x y, head (entries w) = Some x ∧ last (entries w) = Some y
         ∧ start w = time x ∧ w_end w = time y.
Proof.
  unfold window_of_run. destruct (entries w) as [|x r] eqn:E; [done|].
  destruct (last (x :: r)) as [y|] eqn:L; [|done].
  intros [= <-]. by exists x, y.
Qed.

Lemma window_fields series w :
  w ∈ findAccessWindows series → window_of_run (entries w) = Some w.
Proof.
  apply (proj1 (Forall_forall _ _) (proj1 (faw_fields series))).
Qed.

Lemma window_position series w :
  w ∈ findAccessWindows series →
  ∃ pre post, series = pre ++ entries w ++ post
    ∧ entries w ≠ [] ∧ Forall at_or_below (entries w)
    ∧ (∀ e, last pre = Some e → above e)
    ∧ (∀ e, head post = Some e → above e).
Proof.
  intros Hw. apply (runs_position series _ (proj1 (faw_runs series))).
  apply list_elem_of_fmap. by exists w.
Qed.

Lemma windows_layout series i j wi wj :
  findAccessWindows series !! i = Some wi →
  findAccessWindows series !! j = Some wj →
  (i < j)%nat →
  ∃ pre mid post,
    series = pre ++ entries wi ++ mid ++ entries wj ++ post ∧ mid ≠ [].
Proof.
  intros Hi Hj Hij.
  apply (runs_layout series _ (proj1 (faw_runs series)) i j); [| |done];
    rewrite list_lookup_fmap; by (rewrite Hi || rewrite Hj).
Qed.

Lemma windows_across (R : Z → Z → Prop) series i j wi wj :
  StronglySorted (λ a b, R (time a) (time b)) series →
  findAccessWindows series !! i = Some wi →
  findAccessWindows series !! j = Some wj →
  (i < j)%nat → R (w_end wi) (start wj).
Proof.
  intros Hs Hi Hj Hij.
  destruct (windows_layout series i j wi wj Hi Hj Hij)
    as (pre & mid & post & E & _).
  rewrite E in Hs.
  destruct (window_of_run_ends wi) as (_ & y & _ & Hy & _ & ->).
  { eapply window_fields. by eapply list_elem_of_lookup_2. }
  destruct (window_of_run_ends wj) as (x & _ & Hx & _ & -> & _).
  { eapply window_fields. by eapply list_elem_of_lookup_2. }
  by apply (sorted_across _ _ _ _ _ _ _ _ Hs Hy Hx).
Qed.

Lemma window_start_le_end series w :
  ordered_by_time series = true →
  w ∈ findAccessWindows series → start w ≤ w_end w.
Proof.
  intros Hord Hw.
  destruct (window_position series w Hw) as (pre & post & E & _).
  destruct (window_of_run_ends w) as (x & y & Hx & Hy & -> & ->).
  { by eapply window_fields. }
  apply ordered_sorted in Hord. rewrite E in Hord.
  destruct (sorted_within _ _ _ _ _ _ Hord Hx Hy) as [-> | H]; lia.
Qed.

(** C7.  For every series ordered by time, the windows of
    [findAccessWindows] come in chronological order, an earlier window
    ending no later than a later one starts, and strictly before it when
    the times of the series are strictly increasing; two windows never share
    a position of the series, a sample lies between them; every window has
    [start <= end]; every sample among the entries of a window has its
    prediction at or below 1.1; and the entries of a window are a contiguous
    stretch of the series whose neighbours just before and just after it,
    when they exist, have a prediction above 1.1. *)
Theorem findAccessWindows_invariants series :
  ordered_by_time series = true →
  (∀ i j wi wj,
     findAccessWindows series !! i = Some wi →
     findAccessWindows series !! j = Some wj →
     (i < j)%nat → w_end wi ≤ start wj)
  ∧ (strictly_ordered_by_time series = true →
     ∀ i j wi wj,
       findAccessWindows series !! i = Some wi →
       findAccessWindows series !! j = Some wj →
       (i < j)%nat → w_end wi < start wj)
  ∧ (∀ i j wi wj,
       findAccessWindows series !! i = Some wi →
       findAccessWindows series !! j = Some wj →
       (i < j)%nat →
       ∃ pre mid post,
         series = pre ++ entries wi ++ mid ++ entries wj ++ post ∧ mid ≠ [])
  ∧ (∀ w, w ∈ findAccessWindows series → start w ≤ w_end w)
  ∧ (∀ w e, w ∈ findAccessWindows series → e ∈ entries w → at_or_below e)
  ∧ (∀ w, w ∈ findAccessWindows series →
       ∃ pre post,
         series = pre ++ entries w ++ post
         ∧ (∀ e, last pre = Some e → above e)
         ∧ (∀ e, head post = Some e → above e)).
Proof.
  intros Hord. split; [|split; [|split; [|split; [|split]]]].
  - intros i j wi wj. apply (windows_across Z.le). by apply ordered_sorted.
  - intros Hstrict i j wi wj. apply (windows_across Z.lt).
    by apply strictly_ordered_sorted.
  - apply windows_layout.
  - intros w. by apply window_start_le_end.
  - intros w e Hw He.
    destruct (window_position series w Hw) as (pre & post & _ & _ & Hall & _).
    by apply (proj1 (Forall_forall _ _) Hall).
  - intros w Hw.
    destruct (window_position series w Hw)
      as (pre & post & E & _ & _ & Hpre & Hpost).
    by exists pre, post.
Qed.

Example faw_dawn :
  findAccessWindows dawn
  = [ open_window (sample 6 0 "06:00 AM" 1.0);
      {| start := at_clock 6 30; startTide := 0.9;
         entries := [sample 6 30 "06:30 AM" 0.9; sample 6 45 "06:45 AM" 1.1];
         w_end := at_clock 6 45; endTide := 1.1 |} ].
Proof. reflexivity. Qed.

Lemma findAccessWindows_invariants_witness :
  ordered_by_time dawn = true
  ∧ strictly_ordered_by_time dawn = true
  ∧ (∀ i j wi wj,
       findAccessWindows dawn !! i = Some wi →
       findAccessWindows dawn !! j = Some wj →
       (i < j)%nat → w_end wi < start wj)
  ∧ (∀ w, w ∈ findAccessWindows dawn → start w ≤ w_end w)
  ∧ (∀ w e, w ∈ findAccessWindows dawn → e ∈ entries w → at_or_below e).
Proof.
  split; [reflexivity|]. split; [reflexivity|]. split; [|split].
  - apply (proj1 (proj2 (findAccessWindows_invariants dawn eq_refl))).
    reflexivity.
  - apply (findAccessWindows_invariants dawn eq_refl).
  - apply (findAccessWindows_invariants dawn eq_refl).
Defined.

(** ** The countdown *)

Lemma find_first {A} (f : A → bool) (l : list A) x :
  List.find f l = Some x →
  ∃ i, l !! i = Some x ∧ f x = true
       ∧ ∀ j y, (j < i)%nat → l !! j = Some y → f y = false.
Proof.
  induction l as [|a l IH]; simpl; [done|].
  destruct (f a) eqn:Fa.
  - intros [= <-]. exists 0%nat. repeat split; [done|]. intros; lia.
  - intros H. destruct (IH H) as (i & Hi & Hx & Hbefore).
    exists (S i). repeat split; [done..|].
    intros [|j] y Hj Hy; simpl in Hy; [by simplify_eq|].
    apply (Hbefore j); [lia | done].
Qed.

Lemma find_none {A} (f : A → bool) (l : list A) :
  List.find f l = None ↔ ∀ x, x ∈ l → f x = false.
Proof.
  induction l as [|a l IH]; simpl.
  - split; [|done]. intros _ x Hx. by apply elem_of_nil in Hx.
  - destruct (f a) eqn:Fa.
    + split; [done|]. intros H. specialize (H a (list_elem_of_here a l)). congruence.
    + rewrite IH. split.
      * intros H x Hx. apply elem_of_cons in Hx as [-> | Hx]; auto.
      * intros H x Hx. apply H. by right.
Qed.

Lemma in_window_spec now w :
  in_window now w = true ↔ start w ≤ now ≤ w_end w.
Proof. unfold in_window. rewrite andb_true_iff. lia. Qed.

Lemma starts_after_spec now w : starts_after now w = true ↔ now < start w.
Proof. unfold starts_after. lia. Qed.

Lemma window_starts_monotone series i j wi wj :
  ordered_by_time series = true →
  findAccessWindows series !! i = Some wi →
  findAccessWindows series !! j = Some wj →
  (i ≤ j)%nat → start wi ≤ start wj.
Proof.
  intros Hord Hi Hj Hij.
  destruct (decide (i = j)) as [->|Hne].
  - rewrite Hi in Hj. injection Hj as ->. lia.
  - assert (w_end wi ≤ start wj).
    { apply (windows_across Z.le series i j); [by apply ordered_sorted|done|done|lia]. }
    assert (start wi ≤ w_end wi).
    { apply (window_start_le_end series); [done|]. by eapply list_elem_of_lookup_2. }
    lia.
Qed.

(** C2.  For every series and every instant [now], with the windows that
    [findAccessWindows] computes from the series: if [now] lies within
    [start, end] of some window, both ends included, [getCountdown] returns
    type window-closing with [ms = end - now] for the first such window;
    otherwise, if some window starts strictly after [now], it returns type
    window-opening with [ms = start - now] for the first such window, which
    for a series ordered by time is the one that starts earliest; otherwise,
    and for the empty series, it returns null. *)
Theorem getCountdown_cases series currentTime clock :
  let now := resolveNow currentTime clock in
  let ws := findAccessWindows series in
  ((∃ w, w ∈ ws ∧ start w ≤ now ≤ w_end w) →
   ∃ i w,
     ws !! i = Some w ∧ start w ≤ now ≤ w_end w
     ∧ (∀ j w', (j < i)%nat → ws !! j = Some w' →
                ¬ (start w' ≤ now ≤ w_end w'))
     ∧ getCountdown series currentTime clock
       = Some {| type := window_closing; ms := w_end w - now; window := w |})
  ∧ ((∀ w, w ∈ ws → ¬ (start w ≤ now ≤ w_end w)) →
     (∃ w, w ∈ ws ∧ now < start w) →
     ∃ i w,
       ws !! i = Some w ∧ now < start w
       ∧ (∀ j w', (j < i)%nat → ws !! j = Some w' → ¬ (now < start w'))
       ∧ (ordered_by_time series = true →
          ∀ w', w' ∈ ws → now < start w' → start w ≤ start w')
       ∧ getCountdown series currentTime clock
         = Some {| type := window_opening; ms := start w - now; window := w |})
  ∧ ((∀ w, w ∈ ws → ¬ (start w ≤ now ≤ w_end w) ∧ ¬ (now < start w)) →
     getCountdown series currentTime clock = None)
  ∧ getCountdown [] currentTime clock = None.
Proof.
  intros now ws. unfold getCountdown. fold now. fold ws.
  split; [|split; [|split]].
  - intros (w0 & Hw0 & Hin0).
    destruct (List.find (in_window now) ws) as [w|] eqn:F.
    + destruct (find_first _ _ _ F) as (i & Hi & Hw & Hbefore).
      exists i, w. apply in_window_spec in Hw. repeat split; try done; try lia.
      intros j w' Hj Hw' Hin. apply in_window_spec in Hin.
      rewrite (Hbefore j w' Hj Hw') in Hin. discriminate.
    + exfalso. apply in_window_spec in Hin0.
      rewrite (proj1 (find_none _ _) F w0 Hw0) in Hin0. discriminate.
  - intros Hnone (w0 & Hw0 & Hafter0).
    assert (List.find (in_window now) ws = None) as ->.
    { apply find_none. intros w Hw. destruct (in_window now w) eqn:E; [|done].
      apply in_window_spec in E. by destruct (Hnone w Hw). }
    destruct (List.find (starts_after now) ws) as [w|] eqn:F.
    + destruct (find_first _ _ _ F) as (i & Hi & Hw & Hbefore).
      exists i, w. apply starts_after_spec in Hw. repeat split; try done.
      * intros j w' Hj Hw' Hin. apply starts_after_spec in Hin.
        rewrite (Hbefore j w' Hj Hw') in Hin. discriminate.
      * intros Hord w' Hw' Hafter.
        apply list_elem_of_lookup in Hw' as [j Hj].
        apply (window_starts_monotone series i j); [done..|].
        destruct (decide (i ≤ j)%nat) as [|Hlt]; [done|]. exfalso.
        apply starts_after_spec in Hafter.
        rewrite (Hbefore j w') in Hafter; [discriminate | lia | done].
    + exfalso. apply starts_after_spec in Hafter0.
      rewrite (proj1 (find_none _ _) F w0 Hw0) in Hafter0. discriminate.
  - intros Hnone.
    assert (List.find (in_window now) ws = None) as ->.
    { apply find_none. intros w Hw. destruct (in_window now w) eqn:E; [|done].
      apply in_window_spec in E. by destruct (Hnone w Hw) as [H _]. }
    assert (List.find (starts_after now) ws = None) as ->; [|done].
    apply find_none. intros w Hw. destruct (starts_after now w) eqn:E; [|done].
    apply starts_after_spec in E. by destruct (Hnone w Hw) as [_ H].
  - reflexivity.
Qed.

Lemma getCountdown_cases_witness :
  (∃ i w,
     findAccessWindows morning !! i = Some w
     ∧ start w ≤ at_clock 8 20 ≤ w_end w
     ∧ (∀ j w', (j < i)%nat → findAccessWindows morning !! j = Some w' →
                ¬ (start w' ≤ at_clock 8 20 ≤ w_end w'))
     ∧ getCountdown morning (Some (at_clock 8 20)) 0
       = Some {| type := window_closing; ms := w_end w - at_clock 8 20;
                 window := w |})
  ∧ (∃ i w,
       findAccessWindows morning !! i = Some w
       ∧ at_clock 7 0 < start w
       ∧ (∀ j w', (j < i)%nat → findAccessWindows morning !! j = Some w' →
                  ¬ (at_clock 7 0 < start w'))
       ∧ (ordered_by_time morning = true →
          ∀ w', w' ∈ findAccessWindows morning → at_clock 7 0 < start w' →
                start w ≤ start w')
       ∧ getCountdown morning (Some (at_clock 7 0)) 0
         = Some {| type := window_opening; ms := start w - at_clock 7 0;
                   window := w |})
  ∧ getCountdown morning (Some (at_clock 9 30)) 0 = None.
Proof.
  split; [|split].
  - apply (proj1 (getCountdown_cases morning (Some (at_clock 8 20)) 0)).
    exists morning_window. split; [by left | vm_compute; split; discriminate].
  - apply (proj1 (proj2 (getCountdown_cases morning (Some (at_clock 7 0)) 0))).
    + intros w Hw. apply list_elem_of_singleton in Hw as ->.
      vm_compute. intros [H _]. by apply H.
    + exists morning_window. split; [by left | reflexivity].
  - apply (proj1 (proj2 (proj2
      (getCountdown_cases morning (Some (at_clock 9 30)) 0)))).
    intros w Hw. apply list_elem_of_singleton in Hw as ->.
    vm_compute. split; [intros [_ H]; by apply H | discriminate].
Defined.

(** The two countdown scenarios of the specification, evaluated. *)
Example countdown_inside :
  getCountdown morning (Some (at_clock 8 20)) 0
  = Some {| type := window_closing; ms := 25 * 60 * 1000;
            window := morning_window |}.
Proof. reflexivity. Qed.

Example countdown_before :
  getCountdown morning (Some (at_clock 7 0)) 0
  = Some {| type := window_opening; ms := 75 * 60 * 1000;
            window := morning_window |}.
Proof. reflexivity. Qed.

(** ** Extremes *)

Section FirstBest.
Context {A : Type} (better : A → A → bool).
Hypothesis better_irrefl : ∀ x, better x x = false.
Hypothesis better_trans :
  ∀ x y z, better x y = true → better y z = true → better x z = true.
Hypothesis better_weak :
  ∀ x y z, better x y = true → better x z = true ∨ better z y = true.

Lemma first_best_single x : first_best better [x] 0 x.
Proof.
  repeat split; [|intros; lia].
  intros e He. apply list_elem_of_singleton in He as ->. apply better_irrefl.
Qed.

Lemma first_best_step done i cur e :
  first_best better done i cur →
  ∃ i', first_best better (done ++ [e]) i' (pick better cur e).
Proof.
  intros (Hi & Hmax & Hfirst). unfold pick. destruct (better e cur) eqn:E.
  - exists (length done). repeat split.
    + by rewrite list_lookup_middle.
    + intros x Hx. apply elem_of_app in Hx as [Hx | Hx].
      * destruct (better x e) eqn:Exe; [|done].
        rewrite <- (Hmax x Hx). symmetry. by eapply better_trans.
      * apply list_elem_of_singleton in Hx as ->. apply better_irrefl.
    + intros k x Hk Hx. rewrite lookup_app_l in Hx by done.
      destruct (better_weak e cur x E) as [H | H]; [done|].
      rewrite (Hmax x) in H; [done|]. by eapply list_elem_of_lookup_2.
  - exists i. repeat split.
    + rewrite lookup_app_l; [done|]. by eapply lookup_lt_Some.
    + intros x Hx. apply elem_of_app in Hx as [Hx | Hx]; [by apply Hmax|].
      by apply list_elem_of_singleton in Hx as ->.
    + intros k x Hk Hx. apply (Hfirst k); [done|].
      rewrite lookup_app_l in Hx; [done|].
      apply lookup_lt_Some in Hi. lia.
Qed.

Lemma first_best_fold l done i cur :
  first_best better done i cur →
  ∃ i', first_best better (done ++ l) i' (foldl (pick better) cur l).
Proof.
  revert done i cur. induction l as [|e l IH]; intros done i cur H; simpl.
  - exists i. by rewrite app_nil_r.
  - destruct (first_best_step done i cur e H) as [i' H'].
    destruct (IH _ _ _ H') as [i'' H''].
    exists i''. by rewrite <- app_assoc in H''.
Qed.

(** The scan started on the first element and run over the whole list,
    first element included. *)
Lemma first_best_scan x l :
  ∃ i, first_best better (x :: l) i (foldl (pick better) x (x :: l)).
Proof.
  simpl. unfold pick at 2. rewrite better_irrefl.
  apply (first_best_fold l [x] 0%nat x), first_best_single.
Qed.
End FirstBest.

Lemma highlow_fold l hi lo :
  foldl highlow_step (hi, lo) l
  = (foldl (pick higher) hi l, foldl (pick lower) lo l).
Proof.
  revert hi lo. induction l as [|e l IH]; intros hi lo; [done|].
  simpl. apply IH.
Qed.

Lemma higher_irrefl x : higher x x = false.
Proof. unfold higher. apply Qltb_false. apply Qle_refl. Qed.

Lemma higher_trans x y z :
  higher x y = true → higher y z = true → higher x z = true.
Proof.
  unfold higher. rewrite !Qltb_true. intros H1 H2. by eapply Qlt_trans.
Qed.

Lemma higher_weak x y z :
  higher x y = true → higher x z = true ∨ higher z y = true.
Proof.
  unfold higher. rewrite !Qltb_true. intros H.
  destruct (Qlt_le_dec (prediction z) (prediction x)) as [Hlt | Hle]; [by left|].
  right. by eapply Qlt_le_trans.
Qed.

Lemma lower_irrefl x : lower x x = false.
Proof. unfold lower. apply Qltb_false. apply Qle_refl. Qed.

Lemma lower_trans x y z :
  lower x y = true → lower y z = true → lower x z = true.
Proof.
  unfold lower. rewrite !Qltb_true. intros H1 H2. by eapply Qlt_trans.
Qed.

Lemma lower_weak x y z :
  lower x y = true → lower x z = true ∨ lower z y = true.
Proof.
  unfold lower. rewrite !Qltb_true. intros H.
  destruct (Qlt_le_dec (prediction x) (prediction z)) as [Hlt | Hle]; [by left|].
  right. by eapply Qle_lt_trans.
Qed.

(** C8.  For the empty series [findHighLowTides] returns
    [{high: null, low: null}].  For every non-empty series it returns as
    [high] the first sample that attains the maximum prediction (no sample
    has a greater prediction, every earlier sample has a strictly smaller
    one) and as [low] the first sample that attains the minimum
    prediction. *)
Theorem findHighLowTides_first_extremes :
  findHighLowTides [] = {| high := None; low := None |}
  ∧ ∀ series, series ≠ [] →
      ∃ i j hi lo,
        findHighLowTides series = {| high := Some hi; low := Some lo |}
        ∧ series !! i = Some hi
        ∧ (∀ e, e ∈ series → (prediction e <= prediction hi)%Q)
        ∧ (∀ k e, (k < i)%nat → series !! k = Some e →
                  (prediction e < prediction hi)%Q)
        ∧ series !! j = Some lo
        ∧ (∀ e, e ∈ series → (prediction lo <= prediction e)%Q)
        ∧ (∀ k e, (k < j)%nat → series !! k = Some e →
                  (prediction lo < prediction e)%Q).
Proof.
  split; [reflexivity|].
  intros [|x l] Hne; [done|]. unfold findHighLowTides.
  rewrite highlow_fold.
  destruct (first_best_scan higher higher_irrefl higher_trans higher_weak x l)
    as (i & Hi & Hmax & Hfirst).
  destruct (first_best_scan lower lower_irrefl lower_trans lower_weak x l)
    as (j & Hj & Hmin & Hfirstj).
  exists i, j, (foldl (pick higher) x (x :: l)), (foldl (pick lower) x (x :: l)).
  repeat split; try done.
  - intros e He. apply Qltb_false. by apply Hmax.
  - intros k e Hk He. apply Qltb_true. by apply (Hfirst k).
  - intros e He. apply Qltb_false. by apply Hmin.
  - intros k e Hk He. apply Qltb_true. by apply (Hfirstj k).
Qed.

Lemma findHighLowTides_first_extremes_witness :
  ∃ i j hi lo,
    findHighLowTides morning = {| high := Some hi; low := Some lo |}
    ∧ morning !! i = Some hi
    ∧ (∀ e, e ∈ morning → (prediction e <= prediction hi)%Q)
    ∧ (∀ k e, (k < i)%nat → morning !! k = Some e →
              (prediction e < prediction hi)%Q)
    ∧ morning !! j = Some lo
    ∧ (∀ e, e ∈ morning → (prediction lo <= prediction e)%Q)
    ∧ (∀ k e, (k < j)%nat → morning !! k = Some e →
              (prediction lo < prediction e)%Q).
Proof.
  apply (proj2 findHighLowTides_first_extremes morning). discriminate.
Defined.

Example highlow_morning :
  findHighLowTides morning
  = {| high := Some (sample 8 0 "08:00 AM" 1.3);
       low := Some (sample 8 30 "08:30 AM" 0.9) |}.
Proof. reflexivity. Qed.

(** Equal predictions: the first occurrence stays. *)
Example highlow_tie :
  findHighLowTides [sample 8 0 "a" 1.2; sample 8 15 "b" 1.2; sample 8 30 "c" 1.2]
  = {| high := Some (sample 8 0 "a" 1.2); low := Some (sample 8 0 "a" 1.2) |}.
Proof. reflexivity. Qed.

(** ** Trend *)

Lemma bracket_test now a b :
  (time a <=? now) && (now <? time b) = true ↔ brackets now a b.
Proof. unfold brackets. rewrite andb_true_iff. lia. Qed.

Lemma find_bracket_Some now s a b :
  find_bracket now s = Some (a, b) →
  ∃ i, s !! i = Some a ∧ s !! S i = Some b ∧ brackets now a b
       ∧ ∀ j x y, (j < i)%nat → s !! j = Some x → s !! S j = Some y →
                  ¬ brackets now x y.
Proof.
  induction s as [|x s IH]; [done|]. destruct s as [|y s]; [done|].
  cbn [find_bracket].
  destruct ((time x <=? now) && (now <? time y)) eqn:E.
  - intros [= <- <-]. exists 0%nat. apply bracket_test in E.
    split; [done|]. split; [done|]. split; [done|]. intros; lia.
  - intros H. destruct (IH H) as (i & Hi & HSi & Hb & Hfirst).
    exists (S i). split; [done|]. split; [done|]. split; [done|].
    intros [|j] x' y' Hj Hx' Hy'.
    + simpl in Hx', Hy'. simplify_eq. rewrite <- bracket_test. by rewrite E.
    + apply (Hfirst j); [lia | done | done].
Qed.

Lemma find_bracket_None now s :
  find_bracket now s = None →
  ∀ i x y, s !! i = Some x → s !! S i = Some y → ¬ brackets now x y.
Proof.
  induction s as [|a s IH]; [done|]. destruct s as [|b s].
  - intros _ [|i] x y; done.
  - cbn [find_bracket].
    destruct ((time a <=? now) && (now <? time b)) eqn:E; [done|].
    intros H [|i] x y Hx Hy.
    + simpl in Hx, Hy. simplify_eq. rewrite <- bracket_test. by rewrite E.
    + by apply (IH H i).
Qed.

Lemma sorted_lookup (R : TideEntry → TideEntry → Prop) s i j x y :
  StronglySorted R s → s !! i = Some x → s !! j = Some y → (i < j)%nat → R x y.
Proof.
  intros Hs. revert i j. induction Hs as [|a s Hs IH Hall]; intros i j Hi Hj Hij.
  - done.
  - destruct j as [|j]; [lia|]. simpl in Hj. destruct i as [|i]; simpl in Hi.
    + simplify_eq. apply (proj1 (Forall_forall _ _) Hall).
      by eapply list_elem_of_lookup_2.
    + apply (IH i j); [done | done | lia].
Qed.

Lemma ordered_lookup_le s i j x y :
  ordered_by_time s = true → s !! i = Some x → s !! j = Some y →
  (i ≤ j)%nat → time x ≤ time y.
Proof.
  intros Hord Hi Hj Hij. destruct (decide (i = j)) as [->|Hne].
  - rewrite Hi in Hj. injection Hj as ->. lia.
  - apply (sorted_lookup (λ a b, time a ≤ time b) s i j);
      [by apply ordered_sorted | done | done | lia].
Qed.

Lemma trend_of_cases a b :
  ((prediction a < prediction b)%Q → trend_of a b = rising)
  ∧ ((prediction b <= prediction a)%Q → trend_of a b = falling).
Proof.
  unfold trend_of. split; intros H.
  - apply Qltb_true in H. by rewrite H.
  - apply Qltb_false in H. by rewrite H.
Qed.

Lemma trend_first_bracket series currentTime clock i a b :
  series !! i = Some a → series !! S i = Some b →
  brackets (resolveNow currentTime clock) a b →
  (∀ j x y, (j < i)%nat → series !! j = Some x → series !! S j = Some y →
            ¬ brackets (resolveNow currentTime clock) x y) →
  getTideTrend series currentTime clock = trend_of a b.
Proof.
  intros Hi HSi Hb Hfirst. unfold getTideTrend.
  destruct (find_bracket _ series) as [[a' b']|] eqn:F.
  - destruct (find_bracket_Some _ _ _ _ F) as (i' & Hi' & HSi' & Hb' & Hfirst').
    assert (i = i') as <-.
    { destruct (lt_eq_lt_dec i i') as [[Hlt | Heq] | Hgt]; [|done|].
      - by destruct (Hfirst' i a b Hlt Hi HSi).
      - by destruct (Hfirst i' a' b' Hgt Hi' HSi'). }
    by simplify_eq.
  - by destruct (find_bracket_None _ _ F i a b Hi HSi).
Qed.

Lemma trend_no_bracket series currentTime clock :
  (∀ i x y, series !! i = Some x → series !! S i = Some y →
            ¬ brackets (resolveNow currentTime clock) x y) →
  getTideTrend series currentTime clock = unknown_trend.
Proof.
  intros Hnone. unfold getTideTrend.
  destruct (find_bracket _ series) as [[a b]|] eqn:F; [|done].
  destruct (find_bracket_Some _ _ _ _ F) as (i & Hi & HSi & Hb & _).
  by destruct (Hnone i a b Hi HSi).
Qed.

Lemma ordered_bracket_first series now i a b :
  ordered_by_time series = true →
  series !! i = Some a → series !! S i = Some b → brackets now a b →
  ∀ j x y, (j < i)%nat → series !! j = Some x → series !! S j = Some y →
           ¬ brackets now x y.
Proof.
  intros Hord Hi HSi [Ha Hb] j x y Hj Hx Hy [Hx' Hy'].
  assert (time y ≤ time a)
    by (apply (ordered_lookup_le series (S j) i); [done | done | done | lia]).
  lia.
Qed.

(** C5.  For every series ordered by time and every instant [now]: if a
    consecutive pair of samples brackets [now], that is
    [sample[i].time <= now < sample[i+1].time], then [getTideTrend] returns
    rising when the prediction of [sample[i+1]] is strictly greater than the
    one of [sample[i]] and falling otherwise, equal predictions included; if
    [now] precedes the time of the first sample, or is at or after the time
    of the last one, or the series is empty, it returns unknown. *)
Theorem getTideTrend_cases series currentTime clock :
  let now := resolveNow currentTime clock in
  ordered_by_time series = true →
  (∀ i a b,
     series !! i = Some a → series !! S i = Some b →
     time a ≤ now < time b →
     ((prediction a < prediction b)%Q →
      getTideTrend series currentTime clock = rising)
     ∧ ((prediction b <= prediction a)%Q →
        getTideTrend series currentTime clock = falling))
  ∧ (∀ first, head series = Some first → now < time first →
       getTideTrend series currentTime clock = unknown_trend)
  ∧ (∀ lst, last series = Some lst → time lst ≤ now →
       getTideTrend series currentTime clock = unknown_trend)
  ∧ (series = [] → getTideTrend series currentTime clock = unknown_trend).
Proof.
  intros now Hord. split; [|split; [|split]].
  - intros i a b Hi HSi Hb.
    rewrite (trend_first_bracket series currentTime clock i a b Hi HSi Hb).
    + apply trend_of_cases.
    + by apply (ordered_bracket_first series _ i a b).
  - intros first Hfirst Hnow. apply trend_no_bracket.
    intros i x y Hx Hy [Hx' _].
    assert (time first ≤ time x).
    { apply (ordered_lookup_le series 0 i); [done | | done | lia].
      by rewrite <- head_lookup. }
    fold now in Hx'. lia.
  - intros lst Hlast Hnow. apply trend_no_bracket.
    intros i x y Hx Hy [_ Hy'].
    assert (time y ≤ time lst).
    { rewrite last_lookup in Hlast.
      apply (ordered_lookup_le series (S i) (Nat.pred (length series)));
        [done | done | done |].
      apply lookup_lt_Some in Hy. lia. }
    fold now in Hy'. lia.
  - intros ->. reflexivity.
Qed.

Lemma getTideTrend_cases_witness :
  getTideTrend (pair_of 1.0 1.2) (Some (at_clock 8 5)) 0 = rising
  ∧ getTideTrend (pair_of 1.2 1.0) (Some (at_clock 8 5)) 0 = falling
  ∧ getTideTrend (pair_of 1.2 1.2) (Some (at_clock 8 5)) 0 = falling
  ∧ getTideTrend morning (Some (at_clock 7 0)) 0 = unknown_trend
  ∧ getTideTrend morning (Some (at_clock 9 0)) 0 = unknown_trend.
Proof.
  split; [|split; [|split; [|split]]].
  - refine (proj1 (proj1 (getTideTrend_cases (pair_of 1.0 1.2)
      (Some (at_clock 8 5)) 0 eq_refl) 0%nat _ _ eq_refl eq_refl _) _).
    + by_evaluation.
    + reflexivity.
  - refine (proj2 (proj1 (getTideTrend_cases (pair_of 1.2 1.0)
      (Some (at_clock 8 5)) 0 eq_refl) 0%nat _ _ eq_refl eq_refl _) _).
    + by_evaluation.
    + by_evaluation.
  - refine (proj2 (proj1 (getTideTrend_cases (pair_of 1.2 1.2)
      (Some (at_clock 8 5)) 0 eq_refl) 0%nat _ _ eq_refl eq_refl _) _).
    + by_evaluation.
    + by_evaluation.
  - refine (proj1 (proj2 (getTideTrend_cases morning (Some (at_clock 7 0)) 0
      eq_refl)) _ eq_refl _).
    reflexivity.
  - refine (proj1 (proj2 (proj2 (getTideTrend_cases morning
      (Some (at_clock 9 0)) 0 eq_refl))) _ eq_refl _).
    by_evaluation.
Defined.

(** ** Current status *)

Lemma closest_fold now l c :
  foldl (closest_step now) (Some c, Some (Z.abs (time c - now))) l
  = (Some (foldl (pick (nearer now)) c l),
     Some (Z.abs (time (foldl (pick (nearer now)) c l) - now))).
Proof.
  revert c. induction l as [|e l IH]; intros c; [done|].
  simpl. unfold closest_step at 2. simpl. unfold pick at 2 4, nearer at 2 4.
  destruct (Z.abs (time e - now) <? Z.abs (time c - now)); apply IH.
Qed.

Lemma find_closest_cons now x l :
  find_closest now (x :: l) = Some (foldl (pick (nearer now)) x l).
Proof. unfold find_closest. simpl. unfold closest_step at 2. simpl. by rewrite closest_fold. Qed.

Lemma nearer_irrefl now x : nearer now x x = false.
Proof. unfold nearer. apply Z.ltb_irrefl. Qed.

Lemma nearer_trans now x y z :
  nearer now x y = true → nearer now y z = true → nearer now x z = true.
Proof. unfold nearer. rewrite !Z.ltb_lt. intros. lia. Qed.

Lemma nearer_weak now x y z :
  nearer now x y = true → nearer now x z = true ∨ nearer now z y = true.
Proof. unfold nearer. rewrite !Z.ltb_lt. intros. lia. Qed.

(** The scan selects the first sample at the least distance from [now]. *)
Lemma find_closest_nearest now series :
  series ≠ [] →
  ∃ i c,
    find_closest now series = Some c
    ∧ series !! i = Some c
    ∧ (∀ e, e ∈ series → Z.abs (time c - now) ≤ Z.abs (time e - now))
    ∧ (∀ k e, (k < i)%nat → series !! k = Some e →
              Z.abs (time c - now) < Z.abs (time e - now)).
Proof.
  destruct series as [|x l]; [done|]. intros _.
  rewrite find_closest_cons.
  destruct (first_best_fold (nearer now) (nearer_irrefl now) (nearer_trans now)
              (nearer_weak now) l [x] 0%nat x) as (i & Hi & Hmin & Hfirst).
  { by apply first_best_single, nearer_irrefl. }
  exists i, (foldl (pick (nearer now)) x l).
  split; [done|]. split; [done|]. split.
  - intros e He. apply Z.ltb_ge. by apply Hmin.
  - intros k e Hk He. apply Z.ltb_lt. by apply (Hfirst k).
Qed.

Lemma find_closest_nil now : find_closest now [] = None.
Proof. reflexivity. Qed.


(** The effective tide: a non-zero observation wins, a missing one falls
    back to the prediction, and so does an observation of zero. *)
Lemma num_or_cases (obs : option Q) (pred : Q) :
  (∀ v, obs = Some v → ¬ (v == 0)%Q → num_or obs pred = v)
  ∧ (obs = None → num_or obs pred = pred)
  ∧ (∀ v, obs = Some v → (v == 0)%Q → num_or obs pred = pred).
Proof.
  unfold num_or, truthy. repeat split.
  - intros v -> Hv. destruct (Qeq_bool v 0) eqn:E; [|done].
    apply Qeq_bool_iff in E. by destruct Hv.
  - by intros ->.
  - intros v -> Hv. apply Qeq_bool_iff in Hv. by rewrite Hv.
Qed.


(** A row with an observation of zero, which [mergeTideData] never
    builds: the classifier takes the zero for a missing observation and
    reports the prediction, 1.5 m, and not-accessible. *)
Example getCurrentAccessStatus_zero_observation :
  getCurrentAccessStatus [zero_observed] (Some (at_clock 8 0)) 0
  = {| accessible := false; status := not_accessible;
       tide := Some (prediction zero_observed);
       entry := Some zero_observed |}
  ∧ observation zero_observed = Some 0%Q
  ∧ (0 <= accessThreshold)%Q
  ∧ above zero_observed.
Proof.
  split; [reflexivity|]. split; [reflexivity|]. split; by_evaluation.
Qed.

(** C10.  For every non-empty series and every instant, however far from
    the samples, [getCurrentAccessStatus] returns status accessible or
    not-accessible with a tide that is not null; status unknown occurs
    exactly when the series is empty, and so does the null tide; for the
    empty series the result is
    [{accessible: false, status: 'unknown', tide: null}]. *)
Theorem getCurrentAccessStatus_total series currentTime clock :
  let r := getCurrentAccessStatus series currentTime clock in
  (series ≠ [] →
   (status r = accessible_status ∨ status r = not_accessible)
   ∧ is_Some (tide r))
  ∧ (status r = unknown_status ↔ series = [])
  ∧ (tide r = None ↔ series = [])
  ∧ (series = [] →
     r = {| accessible := false; status := unknown_status;
            tide := None; entry := None |}).
Proof.
  destruct series as [|x l].
  - simpl. repeat split; done.
  - cbv zeta. unfold getCurrentAccessStatus. rewrite find_closest_cons.
    destruct (Qleb _ accessThreshold); simpl; repeat split;
      solve [done | eauto | intros; discriminate].
Qed.

Lemma getCurrentAccessStatus_total_witness :
  (status (getCurrentAccessStatus morning (Some (-1000000000000)) 0)
     = accessible_status
   ∨ status (getCurrentAccessStatus morning (Some (-1000000000000)) 0)
     = not_accessible)
  ∧ is_Some (tide (getCurrentAccessStatus morning (Some (-1000000000000)) 0)).
Proof.
  apply (proj1 (getCurrentAccessStatus_total morning (Some (-1000000000000)) 0)).
  discriminate.
Defined.

(** ** The series merger *)

Lemma obsMap_snoc (m : gmap Z Q) l o :
  foldl obsMap_step m (l ++ [o]) = obsMap_step (foldl obsMap_step m l) o.
Proof. by rewrite foldl_app. Qed.

(** Last write wins: the map holds, for each bucket, the value of the last
    observation that falls in it. *)
Lemma obsMap_lookup (obs : list RawSample) (k : Z) :
  foldl obsMap_step ∅ obs !! k
  = value <$> last (filter (λ o, bucket (eventDate o) = k) obs).
Proof.
  induction obs as [|o obs IH] using rev_ind.
  - simpl. by rewrite lookup_empty.
  - rewrite obsMap_snoc, filter_app. unfold obsMap_step at 1.
    destruct (decide (bucket (eventDate o) = k)) as [E|E].
    + rewrite E, lookup_insert_eq.
      rewrite (filter_cons_True _ o []) by done.
      by rewrite filter_nil, last_snoc.
    + rewrite lookup_insert_ne by done. rewrite IH.
      rewrite (filter_cons_False _ o []) by done.
      by rewrite filter_nil, app_nil_r.
Qed.

(** What [mergeTideData] computes: one row per prediction on the
    quarter-hour grid, in input order, whose observation is the matching
    one passed through [|| null]. *)
Lemma mergeTideData_rows LocalTZA toLocaleTimeString predictions observations :
  mergeTideData LocalTZA toLocaleTimeString predictions observations
  = map (λ pred,
           {| time := eventDate pred;
              timeString := toLocaleTimeString (eventDate pred);
              prediction := value pred;
              observation :=
                num_or_null (matching_observation LocalTZA observations pred) |})
        (filterQuarterHour LocalTZA predictions).
Proof.
  unfold mergeTideData. apply map_ext. intros pred. unfold merge_row.
  by rewrite obsMap_lookup.
Qed.

Lemma num_or_null_cases (a : option Q) :
  (∀ v, a = Some v → ¬ (v == 0)%Q → num_or_null a = Some v)
  ∧ (a = None → num_or_null a = None)
  ∧ (∀ v, a = Some v → (v == 0)%Q → num_or_null a = None).
Proof.
  unfold num_or_null, truthy. repeat split.
  - intros v -> Hv. destruct (Qeq_bool v 0) eqn:E; [|done].
    apply Qeq_bool_iff in E. by destruct Hv.
  - by intros ->.
  - intros v -> Hv. apply Qeq_bool_iff in Hv. by rewrite Hv.
Qed.

(** C3, at an observation of exactly zero.  The prediction and the
    observation are both at 8:00 on the quarter-hour grid and in the same
    bucket, so the claim gives the row the observation 0; [mergeTideData]
    returns the row with no observation. *)
Theorem mergeTideData_zero_observation :
  mergeTideData utc eight_am
    [ {| eventDate := at_clock 8 0; value := 1.5 |} ]
    [ {| eventDate := at_clock 8 0; value := 0 |} ]
  = [ {| time := at_clock 8 0; timeString := "08:00 AM"; prediction := 1.5;
         observation := None |} ]
  ∧ matching_observation utc
      [ {| eventDate := at_clock 8 0; value := 0 |} ]
      {| eventDate := at_clock 8 0; value := 1.5 |}
    = Some 0%Q.
Proof. split; reflexivity. Qed.

(** The same inputs through the status classifier: the measured 0 m is
    lost when the rows are built, and the status is taken from the
    prediction. *)
Example status_after_merge_zero :
  getCurrentAccessStatus
    (mergeTideData utc eight_am
       [ {| eventDate := at_clock 8 0; value := 1.5 |} ]
       [ {| eventDate := at_clock 8 0; value := 0 |} ])
    (Some (at_clock 8 0)) 0
  = {| accessible := false; status := not_accessible; tide := Some 1.5%Q;
       entry := Some (sample 8 0 "08:00 AM" 1.5) |}.
Proof. reflexivity. Qed.

(** With a non-zero value the same inputs give the row its observation. *)
Example mergeTideData_observed :
  mergeTideData utc eight_am
    [ {| eventDate := at_clock 8 0; value := 1.5 |};
      {| eventDate := at_clock 8 0 + 60000; value := 1.6 |};
      {| eventDate := at_clock 8 15; value := 1.7 |} ]
    [ {| eventDate := at_clock 8 0; value := 1.4 |};
      {| eventDate := at_clock 8 0 + 30000; value := 1.45 |};
      {| eventDate := at_clock 9 0; value := 2 |} ]
  = [ {| time := at_clock 8 0; timeString := "08:00 AM"; prediction := 1.5;
         observation := Some 1.45%Q |};
      {| time := at_clock 8 15; timeString := "08:00 AM"; prediction := 1.7;
         observation := None |} ].
Proof. reflexivity. Qed.

(** ** Current status on the series that the merger builds *)





(** On the merged morning at 8:05 the nearest row is the one of 8:00 and
    its observation decides. *)
Example status_merged_morning :
  getCurrentAccessStatus merged_morning (Some (at_clock 8 5)) 0
  = {| accessible := true; status := accessible_status; tide := Some 1.05%Q;
       entry := Some {| time := at_clock 8 0; timeString := "08:00 AM";
                        prediction := 1.5; observation := Some 1.05%Q |} |}.
Proof. reflexivity. Qed.

(** ** The unit converter *)

Example formatHeight_meters : formatHeight 1.234 "meters" = "1.23m".
Proof. reflexivity. Qed.

Example formatHeight_feet :
  formatHeight 1.1 "feet" = "3' 7" +:+ double_quote.
Proof. reflexivity. Qed.

Example parseFloat_prefix :
  parseFloat "1.50m" = Some ((inject_Z 1 + inject_Z 50 / Qpow10 2) * Qpow10 0)%Q.
Proof. reflexivity. Qed.

(** Printing and reading back: [pretty] writes a non-negative integer as a
    non-empty string of digits that [read_digits] reads back to it. *)
Lemma read_digits_app digs tail acc cnt :
  Forall is_digit digs →
  read_digits (digs ++ tail) acc cnt
  = read_digits tail (digits_value acc digs) (cnt + length digs)%nat.
Proof.
  intros H. revert acc cnt. induction H as [|c digs [d Hd] _ IH]; intros acc cnt.
  - simpl. by rewrite Nat.add_0_r.
  - assert (digits_value acc (c :: digs) = digits_value (acc * 10 + d) digs)
      as -> by (unfold digits_value, digit_val; simpl; by rewrite Hd).
    cbn [app read_digits length]. rewrite Hd, IH. f_equal. lia.
Qed.

Lemma digit_of_pretty_char (d : N) :
  (d < 10)%N → digit_of (pretty_N_char d) = Some (Z.of_N d).
Proof.
  intros H.
  assert (d = 0 ∨ d = 1 ∨ d = 2 ∨ d = 3 ∨ d = 4 ∨ d = 5 ∨ d = 6 ∨ d = 7
          ∨ d = 8 ∨ d = 9)%N as Hd by lia.
  repeat (destruct Hd as [-> | Hd]; [reflexivity|]). by subst.
Qed.

Lemma list_ascii_app (s1 s2 : string) :
  list_ascii_of_string (s1 +:+ s2)
  = list_ascii_of_string s1 ++ list_ascii_of_string s2.
Proof. induction s1 as [|c s1 IH]; simpl; [done | by rewrite IH]. Qed.

Lemma pretty_N_go_chars (x : N) :
  ∃ digs,
    Forall is_digit digs
    ∧ digits_value 0 digs = Z.of_N x
    ∧ ((0 < x)%N → digs ≠ [])
    ∧ ∀ s, list_ascii_of_string (pretty_N_go x s)
           = digs ++ list_ascii_of_string s.
Proof.
  induction (N.lt_wf_0 x) as [x _ IH].
  destruct (decide (x = 0)%N) as [-> | Hx].
  - exists []. split; [constructor|]. split; [done|]. split; [lia | done].
  - destruct (IH (x `div` 10)%N) as (digs & Hall & Hval & _ & Hs).
    { apply N.div_lt; lia. }
    exists (digs ++ [pretty_N_char (x `mod` 10)]).
    assert (Hc : digit_of (pretty_N_char (x `mod` 10)) = Some (Z.of_N (x `mod` 10)))
      by (apply digit_of_pretty_char, N.mod_lt; lia).
    repeat split.
    + apply Forall_app. split; [done|]. repeat constructor. by eexists.
    + unfold digits_value in *. rewrite foldl_app. simpl. rewrite Hval.
      unfold digit_val. rewrite Hc. simpl.
      rewrite N2Z.inj_mod, N2Z.inj_div. simpl (Z.of_N 10).
      pose proof (Z.div_mod (Z.of_N x) 10). lia.
    + intros _. by destruct digs.
    + intros s. rewrite pretty_N_go_step by lia. rewrite Hs. simpl.
      by rewrite <- app_assoc.
Qed.

Lemma pretty_Z_chars (n : Z) :
  0 ≤ n →
  ∃ digs,
    digs ≠ [] ∧ Forall is_digit digs ∧ digits_value 0 digs = n
    ∧ list_ascii_of_string (pretty n) = digs.
Proof.
  intros Hn. destruct n as [|p|p]; [| |lia].
  - exists ["0"%char]. repeat split; [done|]. repeat constructor. by eexists.
  - destruct (pretty_N_go_chars (Npos p)) as (digs & Hall & Hval & Hne & Hs).
    exists digs. repeat split; [apply Hne; lia | done | done |].
    change (pretty (Zpos p)) with (pretty_N_go (Npos p) EmptyString).
    rewrite Hs. simpl. by rewrite app_nil_r.
Qed.

Lemma pretty_digit_chars (d : Z) :
  0 ≤ d < 10 →
  ∃ c, list_ascii_of_string (pretty d) = [c] ∧ digit_of c = Some d.
Proof.
  intros H.
  assert (d = 0 ∨ d = 1 ∨ d = 2 ∨ d = 3 ∨ d = 4 ∨ d = 5 ∨ d = 6 ∨ d = 7
          ∨ d = 8 ∨ d = 9) as Hd by lia.
  repeat (destruct Hd as [-> | Hd]; [by eexists|]). subst. by eexists.
Qed.

Lemma two_digits_chars (m : Z) :
  0 ≤ m < 100 →
  ∃ c1 c2,
    list_ascii_of_string (two_digits m) = [c1; c2]
    ∧ digit_of c1 = Some (m / 10) ∧ digit_of c2 = Some (m mod 10).
Proof.
  intros H. unfold two_digits.
  destruct (pretty_digit_chars (m / 10)) as (c1 & E1 & D1).
  { split; [apply Z.div_pos; lia | apply Z.div_lt_upper_bound; lia]. }
  destruct (pretty_digit_chars (m mod 10)) as (c2 & E2 & D2).
  { apply Z.mod_pos_bound. lia. }
  exists c1, c2. by rewrite list_ascii_app, E1, E2.
Qed.

Lemma digit_head c l :
  is_digit c →
  skip_spaces (c :: l) = c :: l ∧ read_sign (c :: l) = (false, c :: l)
  ∧ c ≠ "."%char.
Proof.
  intros [d Hd].
  destruct c as [[] [] [] [] [] [] [] []]; vm_compute in Hd; try discriminate;
    repeat split; discriminate.
Qed.

Lemma parseFloat_fixed (s : string) digs c1 c2 :
  digs ≠ [] → Forall is_digit digs → is_digit c1 → is_digit c2 →
  list_ascii_of_string s = digs ++ "."%char :: c1 :: c2 :: ["m"%char] →
  parseFloat s
  = Some ((inject_Z (digits_value 0 digs)
           + inject_Z (digits_value 0 [c1; c2]) / Qpow10 2) * Qpow10 0)%Q.
Proof.
  intros Hne Hall H1 H2 Hs. unfold parseFloat. rewrite Hs.
  destruct digs as [|c0 digs]; [done|].
  destruct (digit_head c0 (digs ++ "."%char :: c1 :: c2 :: ["m"%char]))
    as (Hskip & Hsign & _); [by inversion Hall|].
  change ((c0 :: digs) ++ "."%char :: c1 :: c2 :: ["m"%char])
    with (c0 :: digs ++ "."%char :: c1 :: c2 :: ["m"%char]).
  rewrite Hskip, Hsign.
  change (c0 :: digs ++ "."%char :: c1 :: c2 :: ["m"%char])
    with ((c0 :: digs) ++ "."%char :: c1 :: c2 :: ["m"%char]).
  rewrite read_digits_app by done.
  cbn [read_digits]. change (digit_of ".") with (@None Z). cbv iota.
  change (c1 :: c2 :: ["m"%char]) with ([c1; c2] ++ ["m"%char]).
  rewrite read_digits_app by (by repeat constructor).
  cbn [read_digits]. change (digit_of "m") with (@None Z). cbv iota.
  reflexivity.
Qed.

Lemma digits_value_pair c1 c2 d1 d2 :
  digit_of c1 = Some d1 → digit_of c2 = Some d2 →
  digits_value 0 [c1; c2] = d1 * 10 + d2.
Proof.
  intros H1 H2. unfold digits_value, digit_val. simpl. by rewrite H1, H2.
Qed.

Lemma inject_Z_decimal (n i d1 d2 : Z) :
  n = 100 * i + (d1 * 10 + d2) →
  (inject_Z n == 100 * inject_Z i + (inject_Z d1 * 10 + inject_Z d2))%Q.
Proof.
  intros ->. rewrite !inject_Z_plus, !inject_Z_mult. reflexivity.
Qed.

(** For every height that is not negative the round trip in meters gives
    the height rounded to two decimals, divided by 100. *)
Lemma parseHeight_formatHeight_value (x : Q) :
  (0 <= x)%Q →
  ∃ y, parseHeight (formatHeight x "meters") "meters" = Some y
       ∧ (y == inject_Z (Qfloor (x * 100 + (1 # 2))) / 100 / 100)%Q.
Proof.
  intros Hx. unfold formatHeight, parseHeight.
  change (String.eqb "meters" "feet") with false. cbv iota.
  unfold toFixed2. rewrite (proj2 (Qltb_false x 0) Hx).
  set (n := Qfloor (x * 100 + (1 # 2))).
  assert (Hn : 0 ≤ n).
  { change 0 with (Qfloor 0). apply Qfloor_resp_le.
    assert (0 <= x * 100)%Q by (apply Qmult_le_0_compat; [done | by_evaluation]).
    lra. }
  destruct (pretty_Z_chars (n / 100)) as (digs & Hne & Hall & Hval & Hs).
  { apply Z.div_pos; lia. }
  destruct (two_digits_chars (n mod 100)) as (c1 & c2 & Hf & D1 & D2).
  { apply Z.mod_pos_bound. lia. }
  erewrite (parseFloat_fixed _ digs c1 c2); [| done | done | by eexists | by eexists |].
  - eexists. split; [reflexivity|].
    rewrite Hval, (digits_value_pair c1 c2 _ _ D1 D2).
    change (Qpow10 2) with (100 # 1)%Q. change (Qpow10 0) with (1 # 1)%Q.
    assert (E : n = 100 * (n / 100) + (n mod 100 / 10 * 10 + n mod 100 mod 10)).
    { pose proof (Z.div_mod n 100). pose proof (Z.div_mod (n mod 100) 10). lia. }
    rewrite (inject_Z_decimal _ _ _ _ E).
    rewrite inject_Z_plus, inject_Z_mult. change (inject_Z 10) with 10%Q.
    field.
  - rewrite !list_ascii_app, Hs, Hf. simpl. by rewrite <- app_assoc.
Qed.

(** So from one meter on the round trip misses the height by more than
    0.98 m. *)
Lemma parseHeight_formatHeight_off (x : Q) :
  (1 <= x)%Q →
  ∃ y, parseHeight (formatHeight x "meters") "meters" = Some y
       ∧ (98 # 100 < x - y)%Q.
Proof.
  intros Hx.
  destruct (parseHeight_formatHeight_value x) as (y & Hy & Hv); [lra|].
  exists y. split; [done|]. rewrite Hv.
  pose proof (Qfloor_le (x * 100 + (1 # 2))) as Hfl.
  set (f := inject_Z (Qfloor (x * 100 + (1 # 2)))) in *.
  assert (f / 100 / 100 == f * (1 # 10000))%Q as -> by field.
  lra.
Qed.

(** C6, at a height of 1.5 m.  The claim says that parsing the formatted
    height gives 1.5 back up to the rounding of the two decimals;
    [formatHeight] prints the meters, [parseHeight] reads the number as
    centimeters and divides it by 100, and the result is 0.015. *)
Theorem parseHeight_formatHeight_meters :
  formatHeight 1.5 "meters" = "1.50m"
  ∧ ∃ y, parseHeight (formatHeight 1.5 "meters") "meters" = Some y
         ∧ (y == 0.015)%Q
         ∧ (1 < 1.5 - y)%Q.
Proof.
  split; [reflexivity|]. eexists. split; [reflexivity|]. split; by_evaluation.
Qed.

(** ** The data source *)

Section DataSourceFacts.
Variable localMidnight : Z → Z.
Variable localEndOfDay : Z → Z.
Variable toISOString : Z → string.
Variable remote : string → Z → Z * Reply.

Local Abbreviation fetch :=
  (fetchObservations localMidnight localEndOfDay toISOString remote).

(** Once the date is not in the future and the cache has no fresh entry,
    the request goes out: exactly one URL is added to the requests. *)
Lemma fetchObservations_requests date w :
  localMidnight date ≤ localMidnight (clock w) →
  isCacheValid (cache_observations w !! getCacheKey toISOString date)
    CACHE_DURATION_observations (clock w) = false →
  requests (snd (fetch date w))
  = requests w
      ++ [observations_url localMidnight localEndOfDay toISOString date].
Proof.
  intros Hday Hcache. unfold fetchObservations.
  destruct (localMidnight (clock w) <? localMidnight date) eqn:E; [lia|].
  rewrite Hcache. unfold request_observations.
  destruct (remote _ (clock w)) as [elapsed [payload | code text | msg]];
    reflexivity.
Qed.

(** A fresh cache entry answers without a request. *)
Lemma fetchObservations_cached date w c :
  localMidnight date ≤ localMidnight (clock w) →
  cache_observations w !! getCacheKey toISOString date = Some c →
  clock w - timestamp c < CACHE_DURATION_observations →
  fetch date w = (Resolved (data c), w).
Proof.
  intros Hday Hc Hage. unfold fetchObservations.
  destruct (localMidnight (clock w) <? localMidnight date) eqn:E; [lia|].
  rewrite Hc. simpl.
  destruct (clock w - timestamp c <? CACHE_DURATION_observations) eqn:A;
    [done | lia].
Qed.
End DataSourceFacts.

(** C9.  For every requested date whose local calendar day is strictly
    after the calendar day of today, [fetchObservations] resolves to the
    empty sequence and leaves the world as it was: no request is issued to
    the remote source, and the cache and the console are untouched. *)
Theorem fetchObservations_future
    (localMidnight localEndOfDay : Z → Z) (toISOString : Z → string)
    (remote : string → Z → Z * Reply) (date : Z) (w : World) :
  localMidnight (clock w) < localMidnight date →
  fetchObservations localMidnight localEndOfDay toISOString remote date w
  = (Resolved [], w)
  ∧ requests
      (snd (fetchObservations localMidnight localEndOfDay toISOString remote
              date w))
    = requests w.
Proof.
  intros Hfuture. unfold fetchObservations.
  destruct (localMidnight (clock w) <? localMidnight date) eqn:E; [done | lia].
Qed.

Lemma fetchObservations_future_witness :
  fetchObservations utc_midnight utc_end_of_day day_number silent_remote
    (clock noon_world + msPerDay) noon_world
  = (Resolved [], noon_world)
  ∧ requests
      (snd (fetchObservations utc_midnight utc_end_of_day day_number
              silent_remote (clock noon_world + msPerDay) noon_world))
    = requests noon_world.
Proof.
  apply (fetchObservations_future utc_midnight utc_end_of_day day_number
           silent_remote (clock noon_world + msPerDay) noon_world).
  reflexivity.
Defined.

(** The same world asked for today: the request goes out. *)
Example fetchObservations_today :
  requests
    (snd (fetchObservations utc_midnight utc_end_of_day day_number
            silent_remote (clock noon_world) noon_world))
  = [ "https://api-iwls.dfo-mpo.gc.ca/api/v1/stations/5cebf1e13d0f4a073c4bbf8c/data?time-series-code=wlo&from=day0T&to=day0T" ].
Proof. reflexivity. Qed.

(** * Further properties *)

(** ** The merger, further *)

Lemma filter_twice {A} (f : A → bool) (l : list A) :
  List.filter f (List.filter f l) = List.filter f l.
Proof.
  induction l as [|a l IH]; [done|]. simpl. destruct (f a) eqn:E; [|done].
  simpl. by rewrite E, IH.
Qed.

(** X1.  Filtering the inputs to the quarter-hour grid before the merge
    changes nothing: [mergeTideData] of the filtered inputs is
    [mergeTideData] of the inputs. *)
Theorem mergeTideData_prefiltered LocalTZA toLocaleTimeString
    (predictions observations : list RawSample) :
  mergeTideData LocalTZA toLocaleTimeString
    (filterQuarterHour LocalTZA predictions)
    (filterQuarterHour LocalTZA observations)
  = mergeTideData LocalTZA toLocaleTimeString predictions observations.
Proof.
  unfold mergeTideData, filterQuarterHour. by rewrite !filter_twice.
Qed.

Lemma list_filter_elem {A} (f : A → bool) (l : list A) x :
  x ∈ List.filter f l ↔ x ∈ l ∧ f x = true.
Proof. rewrite !list_elem_of_In. apply filter_In. Qed.

(** X2.  Every row of [mergeTideData] comes from a prediction on the
    quarter-hour grid, of which it has the instant and the value; an
    observation that a row carries is never zero and is the value of an
    input observation on the grid in the same 15-minute bucket. *)
Theorem mergeTideData_rows_sound LocalTZA toLocaleTimeString
    (predictions observations : list RawSample) (row : TideEntry) :
  row ∈ mergeTideData LocalTZA toLocaleTimeString predictions observations →
  (∃ pred, pred ∈ predictions
     ∧ on_quarter_hour LocalTZA (eventDate pred) = true
     ∧ time row = eventDate pred ∧ prediction row = value pred)
  ∧ ∀ v, observation row = Some v →
      ¬ (v == 0)%Q
      ∧ ∃ obs, obs ∈ observations
          ∧ on_quarter_hour LocalTZA (eventDate obs) = true
          ∧ bucket (eventDate obs) = bucket (time row)
          ∧ value obs = v.
Proof.
  rewrite mergeTideData_rows. intros Hrow.
  apply list_elem_of_fmap in Hrow as (pred & -> & Hpred).
  apply list_filter_elem in Hpred as [Hin Hgrid]. simpl. split.
  - by exists pred.
  - intros v Hv. unfold num_or_null in Hv.
    destruct (matching_observation LocalTZA observations pred) as [u|] eqn:M;
      [|done].
    destruct (truthy u) eqn:T; [|done]. injection Hv as ->. split.
    + intros Hz. apply Qeq_bool_iff in Hz. unfold truthy in T. by rewrite Hz in T.
    + unfold matching_observation in M.
      destruct (last _) as [obs|] eqn:L; [|done]. injection M as <-.
      apply last_Some_elem_of in L. apply list_elem_of_filter in L as [Hb L].
      apply list_filter_elem in L as [Ho Hg]. by exists obs.
Qed.

Lemma mergeTideData_rows_sound_witness :
  (∃ pred,
     pred ∈ [ {| eventDate := at_clock 8 0; value := 1.5 |} ]
     ∧ on_quarter_hour utc (eventDate pred) = true
     ∧ at_clock 8 0 = eventDate pred ∧ 1.5%Q = value pred)
  ∧ ∀ v, Some 1.4%Q = Some v →
      ¬ (v == 0)%Q
      ∧ ∃ obs, obs ∈ [ {| eventDate := at_clock 8 0; value := 1.4 |} ]
          ∧ on_quarter_hour utc (eventDate obs) = true
          ∧ bucket (eventDate obs) = bucket (at_clock 8 0)
          ∧ value obs = v.
Proof.
  apply (mergeTideData_rows_sound utc eight_am
           [ {| eventDate := at_clock 8 0; value := 1.5 |} ]
           [ {| eventDate := at_clock 8 0; value := 1.4 |} ]
           {| time := at_clock 8 0; timeString := "08:00 AM";
              prediction := 1.5; observation := Some 1.4%Q |}).
  by left.
Defined.

Lemma adjacent_raw_sorted (r : Z → Z → bool) (R : Z → Z → Prop) l :
  (∀ x y z, R x y → R y z → R x z) →
  (∀ x y, r x y = true ↔ R x y) →
  adjacent_raw r l = true
  ↔ StronglySorted (λ a b, R (eventDate a) (eventDate b)) l.
Proof.
  intros Htrans Hr. induction l as [|a l IH]; [by split; [constructor|]|].
  destruct l as [|b l].
  - split; [by repeat constructor | done].
  - cbn [adjacent_raw]. rewrite andb_true_iff, IH, Hr. split.
    + intros [Hab Hs]. constructor; [done|]. constructor; [done|].
      apply StronglySorted_inv in Hs as [_ Hall].
      eapply Forall_impl; [exact Hall|]. simpl. intros c Hc. by eapply Htrans.
    + intros Hs. apply StronglySorted_inv in Hs as [Hs Hall].
      split; [by inversion Hall | done].
Qed.

Lemma sorted_adjacent_all (r : Z → Z → bool) (R : Z → Z → Prop) s :
  (∀ x y, R x y → r x y = true) →
  StronglySorted (λ a b, R (time a) (time b)) s → adjacent_all r s = true.
Proof.
  intros Hr. induction s as [|a s IH]; [done|]. intros Hs.
  apply StronglySorted_inv in Hs as [Hs Hall]. destruct s as [|b s]; [done|].
  cbn [adjacent_all]. apply andb_true_iff. split; [|by apply IH].
  apply Hr. by inversion Hall.
Qed.

Lemma StronglySorted_list_filter {A} (R : A → A → Prop) (f : A → bool) l :
  StronglySorted R l → StronglySorted R (List.filter f l).
Proof.
  induction 1 as [|a l Hs IH Hall]; [constructor|]. simpl.
  destruct (f a); [|done]. constructor; [done|].
  apply Forall_forall. intros x Hx. apply list_filter_elem in Hx as [Hx _].
  by apply (proj1 (Forall_forall _ _) Hall).
Qed.

Lemma StronglySorted_map {A B} (R : B → B → Prop) (g : A → B) l :
  StronglySorted (λ a b, R (g a) (g b)) l → StronglySorted R (map g l).
Proof.
  induction 1 as [|a l Hs IH Hall]; [constructor|]. simpl.
  constructor; [done|]. apply Forall_forall. intros y Hy.
  apply list_elem_of_fmap in Hy as (x & -> & Hx).
  by apply (proj1 (Forall_forall _ _) Hall).
Qed.

(** X3.  [mergeTideData] does not sort, and keeps the order it is given:
    when the predictions come in the order of their instants the merged
    series is ordered by time. *)
Theorem mergeTideData_ordered LocalTZA toLocaleTimeString
    (predictions observations : list RawSample) :
  ordered_by_eventDate predictions = true →
  ordered_by_time
    (mergeTideData LocalTZA toLocaleTimeString predictions observations)
  = true.
Proof.
  intros Hord.
  apply (adjacent_raw_sorted Z.leb Z.le) in Hord; [|intros; lia|intros; lia].
  apply (sorted_adjacent_all Z.leb Z.le); [intros; lia|].
  unfold mergeTideData. apply StronglySorted_map. simpl.
  by apply StronglySorted_list_filter.
Qed.

Lemma mergeTideData_ordered_witness :
  ordered_by_time
    (mergeTideData utc eight_am
       [ {| eventDate := at_clock 8 0; value := 1.5 |};
         {| eventDate := at_clock 8 0 + 60000; value := 1.6 |};
         {| eventDate := at_clock 8 15; value := 1.7 |} ]
       [ {| eventDate := at_clock 8 0; value := 1.4 |} ])
  = true.
Proof. apply mergeTideData_ordered. reflexivity. Defined.

(** X4.  A date in the future has no observations: what
    [fetchObservations] resolves to for a day after today merges into a
    series in which no row has an observation, one row per prediction on
    the quarter-hour grid. *)
Theorem future_day_has_no_observations
    (localMidnight localEndOfDay : Z → Z) (toISOString : Z → string)
    (remote : string → Z → Z * Reply) LocalTZA toLocaleTimeString
    (date : Z) (w : World) (predictions obs : list RawSample) :
  localMidnight (clock w) < localMidnight date →
  fst (fetchObservations localMidnight localEndOfDay toISOString remote date w)
  = Resolved obs →
  Forall (λ row, observation row = None)
    (mergeTideData LocalTZA toLocaleTimeString predictions obs)
  ∧ length (mergeTideData LocalTZA toLocaleTimeString predictions obs)
    = length (filterQuarterHour LocalTZA predictions).
Proof.
  intros Hfuture. unfold fetchObservations.
  destruct (localMidnight (clock w) <? localMidnight date) eqn:E; [|lia].
  simpl. intros [= <-]. rewrite mergeTideData_rows. split.
  - apply Forall_forall. intros row Hrow.
    by apply list_elem_of_fmap in Hrow as (pred & -> & _).
  - by rewrite length_map.
Qed.

Lemma future_day_has_no_observations_witness :
  Forall (λ row, observation row = None)
    (mergeTideData utc eight_am
       [ {| eventDate := at_clock 8 0; value := 1.5 |} ] [])
  ∧ length (mergeTideData utc eight_am
              [ {| eventDate := at_clock 8 0; value := 1.5 |} ] [])
    = length (filterQuarterHour utc
                [ {| eventDate := at_clock 8 0; value := 1.5 |} ]).
Proof.
  apply (future_day_has_no_observations utc_midnight utc_end_of_day day_number
           silent_remote utc eight_am (clock noon_world + msPerDay) noon_world).
  - reflexivity.
  - reflexivity.
Defined.

(** ** The window detector, further *)

Lemma filter_all_above gap :
  Forall above gap → List.filter accessible_sample gap = [].
Proof.
  induction 1 as [|e gap He _ IH]; [done|]. simpl. unfold accessible_sample at 1.
  by rewrite (proj2 (step_test_above e) He).
Qed.

Lemma filter_all_below run :
  Forall at_or_below run → List.filter accessible_sample run = run.
Proof.
  induction 1 as [|e run He _ IH]; [done|]. simpl. unfold accessible_sample at 1.
  rewrite (proj2 (step_test_below e) He). by rewrite IH.
Qed.

Lemma runs_concat s rs :
  MaximalRuns s rs → concat rs = List.filter accessible_sample s.
Proof.
  induction 1 as [gap Hgap | gap run rest rs Hgap Hne Hrun Hhd Hrest IH].
  - by rewrite filter_all_above.
  - rewrite !List.filter_app, filter_all_above, filter_all_below by done.
    simpl. by rewrite IH.
Qed.

(** X5.  The windows of [findAccessWindows] partition the accessible
    samples: their entries, one window after the other, are exactly the
    samples of the series with a prediction at or below 1.1, in the order
    of the series; no accessible sample is left out and none is listed
    twice. *)
Theorem findAccessWindows_entries_partition series :
  concat (entries <$> findAccessWindows series)
  = List.filter accessible_sample series.
Proof. apply runs_concat, faw_runs. Qed.

Lemma accessible_sample_level e :
  accessible_sample e = true
  ↔ getAccessibilityLevel (prediction e) = accessible_status.
Proof.
  unfold accessible_sample, getAccessibilityLevel.
  destruct (Qleb (prediction e) accessThreshold); split; congruence.
Qed.

Lemma window_membership series e :
  e ∈ series →
  ((∃ w, w ∈ findAccessWindows series ∧ e ∈ entries w)
   ↔ accessible_sample e = true).
Proof.
  intros He.
  assert (e ∈ concat (entries <$> findAccessWindows series)
          ↔ accessible_sample e = true) as <-.
  { rewrite (runs_concat series _ (proj1 (faw_runs series))), list_filter_elem.
    tauto. }
  rewrite list_elem_of_In, in_concat. split.
  - intros (w & Hw & Hin). exists (entries w). rewrite <- !list_elem_of_In.
    split; [|done]. apply list_elem_of_fmap. by exists w.
  - intros (l & Hl & Hin). rewrite <- !list_elem_of_In in *.
    apply list_elem_of_fmap in Hl as (w & -> & Hw). by exists w.
Qed.

(** X6.  The colour class of a table row and the window list agree: a
    sample of the series is among the entries of some window exactly when
    [getAccessibilityLevel] of its prediction is accessible. *)
Theorem window_membership_is_level series e :
  e ∈ series →
  ((∃ w, w ∈ findAccessWindows series ∧ e ∈ entries w)
   ↔ getAccessibilityLevel (prediction e) = accessible_status).
Proof.
  intros He. rewrite <- accessible_sample_level. by apply window_membership.
Qed.

Lemma window_membership_is_level_witness :
  (∃ w, w ∈ findAccessWindows morning
        ∧ sample 8 30 "08:30 AM" 0.9 ∈ entries w)
  ↔ getAccessibilityLevel (prediction (sample 8 30 "08:30 AM" 0.9))
    = accessible_status.
Proof.
  apply (window_membership_is_level morning). do 2 right. by left.
Defined.

Lemma no_windows_all_above series :
  findAccessWindows series = [] ↔ Forall above series.
Proof.
  split.
  - intros H. pose proof (runs_concat series _ (proj1 (faw_runs series))) as E.
    rewrite H in E. simpl in E. apply Forall_forall. intros e He.
    apply step_test_above. destruct (Qleb _ _) eqn:T; [|done].
    assert (e ∈ List.filter accessible_sample series)
      by (by apply list_filter_elem).
    rewrite <- E in *. by apply elem_of_nil in H0.
  - intros H. pose proof (runs_functional series _ _ (proj1 (faw_runs series))
                            (runs_done series H)) as E.
    by destruct (findAccessWindows series).
Qed.

(** X7.  There is no access window on a day exactly when the low tide that
    [findHighLowTides] reports for it is above 1.1. *)
Theorem no_windows_iff_low_above series lo :
  low (findHighLowTides series) = Some lo →
  (findAccessWindows series = [] ↔ above lo).
Proof.
  destruct series as [|x l]; [done|]. unfold findHighLowTides.
  rewrite highlow_fold. simpl low. intros [= <-].
  destruct (first_best_scan lower lower_irrefl lower_trans lower_weak x l)
    as (j & Hj & Hmin & _).
  rewrite no_windows_all_above. split.
  - intros Hall. apply (proj1 (Forall_forall _ _) Hall).
    by eapply list_elem_of_lookup_2.
  - intros Hlo. apply Forall_forall. intros e He.
    specialize (Hmin e He). apply Qltb_false in Hmin.
    unfold above in *. by eapply Qlt_le_trans.
Qed.

Lemma no_windows_iff_low_above_witness :
  findAccessWindows (pair_of 1.2 1.3) = []
  ↔ above (sample 8 0 "08:00 AM" 1.2).
Proof. apply (no_windows_iff_low_above (pair_of 1.2 1.3)). reflexivity. Defined.

(** X8.  When every sample of a non-empty series is at or below 1.1 the
    day is one window: [findAccessWindows] returns a single window whose
    entries are the whole series. *)
Theorem all_accessible_one_window series :
  series ≠ [] → Forall at_or_below series →
  ∃ w, findAccessWindows series = [w] ∧ entries w = series
       ∧ window_of_run series = Some w.
Proof.
  intros Hne Hall.
  assert (Hruns : MaximalRuns series [series]).
  { rewrite <- (app_nil_r series) at 1.
    change (series ++ []) with ([] ++ series ++ []).
    apply runs_next; auto using head_nil_above. apply runs_done. constructor. }
  pose proof (runs_functional series _ _ (proj1 (faw_runs series)) Hruns) as E.
  destruct (findAccessWindows series) as [|w [|w' ws]] eqn:F; try done.
  injection E as E. exists w. repeat split; [done|].
  rewrite <- E. apply (window_fields series). rewrite F. by left.
Qed.

Lemma all_accessible_one_window_witness :
  ∃ w, findAccessWindows (pair_of 1.0 1.1) = [w]
       ∧ entries w = pair_of 1.0 1.1
       ∧ window_of_run (pair_of 1.0 1.1) = Some w.
Proof.
  apply all_accessible_one_window; [discriminate|].
  repeat constructor; by_evaluation.
Defined.

(** ** The countdown, further *)

(** X9.  A countdown that [getCountdown] returns is about a window of
    [findAccessWindows] and is never negative: for window-closing
    [ms = end - now] with [0 <= ms], for window-opening [ms = start - now]
    with [0 < ms]. *)
Theorem getCountdown_ms_bounds series currentTime clock c :
  getCountdown series currentTime clock = Some c →
  window c ∈ findAccessWindows series
  ∧ match type c with
    | window_closing =>
        ms c = w_end (window c) - resolveNow currentTime clock ∧ 0 ≤ ms c
    | window_opening =>
        ms c = start (window c) - resolveNow currentTime clock ∧ 0 < ms c
    end.
Proof.
  unfold getCountdown.
  destruct (List.find (in_window _) _) as [w|] eqn:F.
  - intros [= <-]. simpl.
    destruct (find_first _ _ _ F) as (i & Hi & Hw & _).
    apply in_window_spec in Hw. split; [by eapply list_elem_of_lookup_2 | lia].
  - destruct (List.find (starts_after _) _) as [w|] eqn:G; [|done].
    intros [= <-]. simpl.
    destruct (find_first _ _ _ G) as (i & Hi & Hw & _).
    apply starts_after_spec in Hw. split; [by eapply list_elem_of_lookup_2 | lia].
Qed.

Lemma getCountdown_ms_bounds_witness :
  window {| type := window_closing; ms := 25 * 60 * 1000;
            window := morning_window |} ∈ findAccessWindows morning
  ∧ (25 * 60 * 1000 = w_end morning_window - at_clock 8 20
     ∧ 0 ≤ 25 * 60 * 1000).
Proof.
  apply (getCountdown_ms_bounds morning (Some (at_clock 8 20)) 0
           {| type := window_closing; ms := 25 * 60 * 1000;
              window := morning_window |}).
  reflexivity.
Defined.

(** ** Trend, further *)

Lemma find_bracket_exists now s first lst :
  head s = Some first → last s = Some lst →
  time first ≤ now < time lst →
  ∃ a b, find_bracket now s = Some (a, b).
Proof.
  revert first. induction s as [|a s IH]; intros first Hf Hl Hnow; [done|].
  simpl in Hf. injection Hf as ->. destruct s as [|b s].
  - simpl in Hl. injection Hl as ->. lia.
  - cbn [find_bracket].
    destruct ((time first <=? now) && (now <? time b)) eqn:E; [by eauto|].
    apply (IH b); [done | done |].
    apply andb_false_iff in E. lia.
Qed.

(** X10.  Inside the span of the series the trend is never unknown: when
    [now] is at or after the time of the first sample and before the time
    of the last, some consecutive pair brackets [now] and [getTideTrend]
    returns rising or falling, whatever the order of the samples in
    between. *)
Theorem getTideTrend_known_inside series currentTime clock first lst :
  head series = Some first → last series = Some lst →
  time first ≤ resolveNow currentTime clock < time lst →
  ∃ i a b,
    series !! i = Some a ∧ series !! S i = Some b
    ∧ brackets (resolveNow currentTime clock) a b
    ∧ getTideTrend series currentTime clock = trend_of a b
    ∧ getTideTrend series currentTime clock ≠ unknown_trend.
Proof.
  intros Hf Hl Hnow.
  destruct (find_bracket_exists _ _ _ _ Hf Hl Hnow) as (a & b & F).
  destruct (find_bracket_Some _ _ _ _ F) as (i & Hi & HSi & Hb & _).
  exists i, a, b. unfold getTideTrend. rewrite F. unfold trend_of.
  repeat split; try done; try apply Hb.
  by destruct (Qltb _ _).
Qed.

Lemma getTideTrend_known_inside_witness :
  ∃ i a b,
    morning !! i = Some a ∧ morning !! S i = Some b
    ∧ brackets (at_clock 8 20) a b
    ∧ getTideTrend morning (Some (at_clock 8 20)) 0 = trend_of a b
    ∧ getTideTrend morning (Some (at_clock 8 20)) 0 ≠ unknown_trend.
Proof.
  apply (getTideTrend_known_inside morning (Some (at_clock 8 20)) 0
           (sample 8 0 "08:00 AM" 1.3) (sample 9 0 "09:00 AM" 1.2));
    [reflexivity | reflexivity | by_evaluation].
Defined.

(** ** Status and countdown at the instant of a sample *)

Lemma strictly_sorted_time_inj s i j a b :
  strictly_ordered_by_time s = true →
  s !! i = Some a → s !! j = Some b → time a = time b → i = j.
Proof.
  intros Hs Hi Hj E. apply strictly_ordered_sorted in Hs.
  destruct (lt_eq_lt_dec i j) as [[Hlt | Heq] | Hgt]; [|done|].
  - pose proof (sorted_lookup _ s i j a b Hs Hi Hj Hlt). simpl in *. lia.
  - pose proof (sorted_lookup _ s j i b a Hs Hj Hi Hgt). simpl in *. lia.
Qed.

Lemma closest_at_sample s i e :
  strictly_ordered_by_time s = true → s !! i = Some e →
  find_closest (time e) s = Some e.
Proof.
  intros Hs Hi.
  destruct (find_closest_nearest (time e) s) as (j & c & Hc & Hj & Hmin & _).
  { intros ->. done. }
  rewrite Hc. f_equal.
  assert (time c = time e).
  { specialize (Hmin e (list_elem_of_lookup_2 _ _ _ Hi)). lia. }
  assert (j = i) as -> by (by eapply strictly_sorted_time_inj).
  congruence.
Qed.

Lemma sorted_from_head (R : TideEntry → TideEntry → Prop) l x e :
  StronglySorted R l → head l = Some x → e ∈ l → x = e ∨ R x e.
Proof.
  intros Hs Hx He. destruct l as [|a l]; simplify_eq/=.
  apply StronglySorted_inv in Hs as [_ Hall].
  apply elem_of_cons in He as [-> | He]; [by left|]. right.
  by apply (proj1 (Forall_forall _ _) Hall).
Qed.

Lemma sorted_to_last (R : TideEntry → TideEntry → Prop) l y e :
  StronglySorted R l → last l = Some y → e ∈ l → e = y ∨ R e y.
Proof.
  intros Hs Hy He. destruct l as [|b l _] using rev_ind; [done|].
  rewrite last_snoc in Hy. injection Hy as ->.
  apply elem_of_app in He as [He | He].
  - right. apply (StronglySorted_app_1_elem_of R l [y]); [done | done | by left].
  - left. by apply list_elem_of_singleton in He.
Qed.

Lemma entries_time_range series w e :
  strictly_ordered_by_time series = true →
  w ∈ findAccessWindows series → e ∈ entries w →
  start w ≤ time e ≤ w_end w.
Proof.
  intros Hs Hw He. apply strictly_ordered_sorted in Hs.
  destruct (window_position series w Hw) as (pre & post & E & _).
  destruct (window_of_run_ends w (window_fields series w Hw))
    as (x & y & Hx & Hy & -> & ->).
  rewrite E in Hs.
  apply StronglySorted_app_1_r, StronglySorted_app_1_l in Hs.
  destruct (sorted_from_head _ _ _ _ Hs Hx He) as [-> | H1];
    destruct (sorted_to_last _ _ _ _ Hs Hy He) as [-> | H2]; simpl in *; lia.
Qed.

Lemma in_range_in_entries series w e :
  strictly_ordered_by_time series = true →
  w ∈ findAccessWindows series → e ∈ series →
  start w ≤ time e ≤ w_end w → e ∈ entries w.
Proof.
  intros Hs Hw He Hrange. apply strictly_ordered_sorted in Hs.
  destruct (window_position series w Hw) as (pre & post & E & _).
  destruct (window_of_run_ends w (window_fields series w Hw))
    as (x & y & Hx & Hy & Hstart & Hend).
  rewrite E in Hs, He.
  apply elem_of_app in He as [He | He].
  - exfalso.
    assert (time e < time x); [|lia].
    apply (StronglySorted_app_1_elem_of _ pre (entries w ++ post) e x Hs He).
    apply elem_of_app. left. destruct (entries w); simplify_eq/=. by left.
  - apply elem_of_app in He as [He | He]; [done|]. exfalso.
    assert (time y < time e); [|lia].
    apply StronglySorted_app_1_r in Hs.
    apply (StronglySorted_app_1_elem_of _ (entries w) post y e Hs); [|done].
    by apply last_Some_elem_of.
Qed.

(** X11.  At the instant of a sample that has no observation, in a series
    with strictly increasing times, the header status and the countdown
    agree: [getCurrentAccessStatus] says accessible exactly when
    [getCountdown] returns a window-closing countdown. *)
Theorem status_agrees_with_countdown series i e clock :
  strictly_ordered_by_time series = true →
  series !! i = Some e → observation e = None →
  (accessible (getCurrentAccessStatus series (Some (time e)) clock) = true
   ↔ ∃ c, getCountdown series (Some (time e)) clock = Some c
          ∧ type c = window_closing).
Proof.
  intros Hs Hi Hobs.
  pose proof (list_elem_of_lookup_2 _ _ _ Hi) as He.
  unfold getCurrentAccessStatus, getCountdown. simpl resolveNow.
  rewrite (closest_at_sample series i e Hs Hi), Hobs. simpl num_or.
  fold (accessible_sample e).
  assert (accessible_sample e = true
          ↔ ∃ w, List.find (in_window (time e)) (findAccessWindows series)
                 = Some w) as Hkey.
  { rewrite <- (window_membership series e He). split.
    - intros (w & Hw & Hin).
      destruct (List.find _ _) as [w'|] eqn:F; [by eauto|]. exfalso.
      pose proof (proj1 (find_none _ _) F w Hw) as Hno.
      apply (entries_time_range series w e Hs Hw) in Hin.
      apply in_window_spec in Hin. congruence.
    - intros (w & F). destruct (find_first _ _ _ F) as (k & Hk & Hin & _).
      apply in_window_spec in Hin. exists w.
      pose proof (list_elem_of_lookup_2 _ _ _ Hk) as Hw. split; [done|].
      by apply (in_range_in_entries series). }
  destruct (accessible_sample e) eqn:A; simpl.
  - split; [|done]. intros _. destruct (proj1 Hkey eq_refl) as (w & ->).
    by eexists.
  - split; [done|]. intros (c & Hc & Hty).
    destruct (List.find (in_window _) _) as [w|] eqn:F.
    + by destruct (proj2 Hkey (ex_intro _ w eq_refl)).
    + destruct (List.find (starts_after _) _); [|done].
      injection Hc as <-. done.
Qed.

Lemma status_agrees_with_countdown_witness :
  accessible (getCurrentAccessStatus morning
                (Some (time (sample 8 30 "08:30 AM" 0.9))) 0) = true
  ↔ ∃ c, getCountdown morning (Some (time (sample 8 30 "08:30 AM" 0.9))) 0
         = Some c
         ∧ type c = window_closing.
Proof.
  apply (status_agrees_with_countdown morning 2%nat); reflexivity.
Defined.

(** ** formatCountdown *)

Lemma countdown_parts_nonneg ms :
  0 ≤ ms →
  countdown_parts ms = (ms / 3600000, (ms / 60000) mod 60, (ms / 1000) mod 60).
Proof.
  intros Hms. unfold countdown_parts, js_rem.
  assert (0 ≤ ms / 1000) by (apply Z.div_pos; lia).
  rewrite !Z.rem_mod_nonneg by lia.
  rewrite Z.div_div by lia. change (1000 * 3600) with 3600000.
  replace ((ms / 1000) mod 3600 / 60) with ((ms / 60000) mod 60); [done|].
  change 3600 with (60 * 60). rewrite Z.rem_mul_r by lia.
  rewrite (Z.div_div ms 1000 60) by lia. change (1000 * 60) with 60000.
  rewrite Z.add_comm, Z.mul_comm, Z.div_add_l by lia.
  rewrite (Z.div_small ((ms / 1000) mod 60)); [lia|].
  apply Z.mod_pos_bound. lia.
Qed.

(** X12.  For a time that is not negative [formatCountdown] prints whole
    hours and minutes from one hour on (the seconds are dropped), minutes
    and seconds from one minute on, and the seconds alone below one
    minute; minutes and seconds are taken modulo 60. *)
Theorem formatCountdown_regimes ms :
  0 ≤ ms →
  (ms < 60000 → formatCountdown ms = pretty (ms / 1000) +:+ "s")
  ∧ (60000 ≤ ms < 3600000 →
     formatCountdown ms
     = pretty (ms / 60000) +:+ "m " +:+ pretty ((ms / 1000) mod 60) +:+ "s")
  ∧ (3600000 ≤ ms →
     formatCountdown ms
     = pretty (ms / 3600000) +:+ "h " +:+ pretty ((ms / 60000) mod 60)
       +:+ "m").
Proof.
  intros Hms. unfold formatCountdown. rewrite countdown_parts_nonneg by done.
  split; [|split].
  - intros Hlt.
    rewrite (Z.div_small ms 3600000), (Z.div_small ms 60000) by lia. simpl.
    rewrite Z.mod_small; [done|].
    split; [apply Z.div_pos; lia | apply Z.div_lt_upper_bound; lia].
  - intros [Hlo Hhi]. rewrite (Z.div_small ms 3600000) by lia.
    assert (1 ≤ ms / 60000 < 60).
    { split; [apply Z.div_le_lower_bound; lia
             | apply Z.div_lt_upper_bound; lia]. }
    rewrite (Z.mod_small (ms / 60000)) by lia.
    destruct (0 <? ms / 60000) eqn:E; [done | lia].
  - intros Hlo.
    assert (1 ≤ ms / 3600000) by (apply Z.div_le_lower_bound; lia).
    destruct (0 <? ms / 3600000) eqn:E; [done | lia].
Qed.

Lemma formatCountdown_regimes_witness :
  formatCountdown 4500000
  = pretty (4500000 / 3600000) +:+ "h " +:+ pretty ((4500000 / 60000) mod 60)
    +:+ "m"
  ∧ formatCountdown 1500000
    = pretty (1500000 / 60000) +:+ "m " +:+ pretty ((1500000 / 1000) mod 60)
      +:+ "s"
  ∧ formatCountdown 59999 = pretty (59999 / 1000) +:+ "s".
Proof.
  split; [|split].
  - apply (proj2 (proj2 (formatCountdown_regimes 4500000 ltac:(lia)))). lia.
  - apply (proj1 (proj2 (formatCountdown_regimes 1500000 ltac:(lia)))). lia.
  - apply (proj1 (formatCountdown_regimes 59999 ltac:(lia))). lia.
Defined.

Lemma countdown_nonneg series currentTime clock c :
  getCountdown series currentTime clock = Some c → 0 ≤ ms c.
Proof.
  unfold getCountdown.
  destruct (List.find (in_window _) _) as [w|] eqn:F.
  - intros [= <-]. simpl. destruct (find_first _ _ _ F) as (i & _ & Hw & _).
    apply in_window_spec in Hw. lia.
  - destruct (List.find (starts_after _) _) as [w|] eqn:G; [|done].
    intros [= <-]. simpl. destruct (find_first _ _ _ G) as (i & _ & Hw & _).
    apply starts_after_spec in Hw. lia.
Qed.

(** X13.  What the header prints for a countdown of [getCountdown] is
    never negative: the hours, minutes and seconds that [formatCountdown]
    computes from its [ms] are not negative, minutes and seconds are below
    60, and together they are the whole seconds of [ms]. *)
Theorem countdown_display_parts series currentTime clock c :
  getCountdown series currentTime clock = Some c →
  ∃ hours minutes seconds,
    countdown_parts (ms c) = (hours, minutes, seconds)
    ∧ 0 ≤ hours ∧ 0 ≤ minutes < 60 ∧ 0 ≤ seconds < 60
    ∧ (hours * 60 + minutes) * 60 + seconds = ms c / 1000.
Proof.
  intros Hc. pose proof (countdown_nonneg _ _ _ _ Hc) as Hms.
  rewrite countdown_parts_nonneg by done.
  eexists _, _, _. split; [reflexivity|].
  assert (0 ≤ ms c / 3600000) by (apply Z.div_pos; lia).
  pose proof (Z.mod_pos_bound (ms c / 60000) 60).
  pose proof (Z.mod_pos_bound (ms c / 1000) 60).
  repeat split; try lia.
  pose proof (Z.div_mod (ms c / 1000) 60).
  pose proof (Z.div_mod (ms c / 60000) 60).
  assert (ms c / 1000 / 60 = ms c / 60000)
    by (by rewrite Z.div_div by lia).
  assert (ms c / 60000 / 60 = ms c / 3600000)
    by (by rewrite Z.div_div by lia).
  lia.
Qed.

Lemma countdown_display_parts_witness :
  ∃ hours minutes seconds,
    countdown_parts (25 * 60 * 1000) = (hours, minutes, seconds)
    ∧ 0 ≤ hours ∧ 0 ≤ minutes < 60 ∧ 0 ≤ seconds < 60
    ∧ (hours * 60 + minutes) * 60 + seconds = 25 * 60 * 1000 / 1000.
Proof.
  apply (countdown_display_parts morning (Some (at_clock 8 20)) 0
           {| type := window_closing; ms := 25 * 60 * 1000;
              window := morning_window |}).
  reflexivity.
Defined.

(** ** filterDisplayWindow *)

Lemma getHours_range LocalTZA t : 0 ≤ getHours LocalTZA t < 24.
Proof. unfold getHours. apply Z.mod_pos_bound. lia. Qed.

Lemma list_filter_all {A} (f : A → bool) (l : list A) :
  (∀ x, x ∈ l → f x = true) → List.filter f l = l.
Proof.
  induction l as [|a l IH]; [done|]. intros H. simpl.
  rewrite (H a) by (by left). rewrite IH; [done|]. intros x Hx. apply H. by right.
Qed.

Lemma list_filter_none {A} (f : A → bool) (l : list A) :
  (∀ x, x ∈ l → f x = false) → List.filter f l = [].
Proof.
  induction l as [|a l IH]; [done|]. intros H. simpl.
  rewrite (H a) by (by left). apply IH. intros x Hx. apply H. by right.
Qed.

(** X14.  [filterDisplayWindow] keeps exactly the rows whose local hour is
    in [startHour, endHour), in the order they have: a series ordered by
    time stays ordered by time; with [endHour <= startHour] nothing is
    kept; with [startHour <= 0] and [24 <= endHour] everything is. *)
Theorem filterDisplayWindow_rows LocalTZA series startHour endHour :
  (∀ e, e ∈ filterDisplayWindow LocalTZA series startHour endHour
        ↔ e ∈ series ∧ startHour ≤ getHours LocalTZA (time e) < endHour)
  ∧ (ordered_by_time series = true →
     ordered_by_time (filterDisplayWindow LocalTZA series startHour endHour)
     = true)
  ∧ (endHour ≤ startHour →
     filterDisplayWindow LocalTZA series startHour endHour = [])
  ∧ (startHour ≤ 0 → 24 ≤ endHour →
     filterDisplayWindow LocalTZA series startHour endHour = series).
Proof.
  unfold filterDisplayWindow. split; [|split; [|split]].
  - intros e. by rewrite list_filter_elem, andb_true_iff, Z.leb_le, Z.ltb_lt.
  - intros Hord. apply (sorted_adjacent_all Z.leb Z.le); [intros; lia|].
    by apply StronglySorted_list_filter, ordered_sorted.
  - intros H. apply list_filter_none. intros e _. apply andb_false_iff. lia.
  - intros H1 H2. apply list_filter_all. intros e _.
    pose proof (getHours_range LocalTZA (time e)). apply andb_true_iff. lia.
Qed.

Lemma filterDisplayWindow_rows_witness :
  ordered_by_time (filterDisplayWindow utc morning 8 9) = true
  ∧ filterDisplayWindow utc morning 22 10 = []
  ∧ filterDisplayWindow utc morning 0 24 = morning.
Proof.
  split; [|split].
  - apply (proj1 (proj2 (filterDisplayWindow_rows utc morning 8 9))).
    reflexivity.
  - apply (proj1 (proj2 (proj2 (filterDisplayWindow_rows utc morning 22 10)))).
    lia.
  - apply (proj2 (proj2 (proj2 (filterDisplayWindow_rows utc morning 0 24))));
      lia.
Defined.

(** ** The unit converter, further *)

(** A remainder that rounds to twelve inches is printed as twelve inches. *)
Example formatHeight_twelve_inches :
  formatHeight 0.3 "feet" = "0' 12" +:+ double_quote.
Proof. reflexivity. Qed.

(** ** The data source, further *)

Section DataSourceMore.
Variable localMidnight : Z → Z.
Variable localEndOfDay : Z → Z.
Variable toISOString : Z → string.
Variable remote : string → Z → Z * Reply.

Local Abbreviation fetchO :=
  (fetchObservations localMidnight localEndOfDay toISOString remote).
Local Abbreviation fetchP :=
  (fetchPredictions localMidnight localEndOfDay toISOString remote).
Local Abbreviation fetchOc :=
  (fetchObservations_on localMidnight localEndOfDay toISOString remote).
Local Abbreviation key := (getCacheKey toISOString).
Local Abbreviation urlO :=
  (observations_url localMidnight localEndOfDay toISOString).
Local Abbreviation urlP :=
  (predictions_url localMidnight localEndOfDay toISOString).

Lemma fetchObservations_success date w elapsed payload :
  localMidnight date ≤ localMidnight (clock w) →
  isCacheValid (cache_observations w !! key date)
    CACHE_DURATION_observations (clock w) = false →
  remote (urlO date) (clock w) = (elapsed, reply_ok payload) →
  fetchO date w
  = (Resolved payload,
     {| clock := clock w + elapsed;
        cache_observations :=
          <[key date := {| timestamp := clock w + elapsed; data := payload |}]>
            (cache_observations w);
        requests := requests w ++ [urlO date];
        console := console w |}).
Proof.
  intros Hday Hcache Hremote. unfold fetchObservations.
  destruct (localMidnight (clock w) <? localMidnight date) eqn:E; [lia|].
  rewrite Hcache. unfold request_observations. by rewrite Hremote.
Qed.

(** X18.  A successful observation fetch is cached for fifteen minutes
    under the ISO date of the requested instant: after a fetch that went
    to the network and succeeded, a fetch for any instant with the same
    cache key, less than 15 minutes after the answer, resolves to the same
    samples and changes nothing, issuing no request. *)
Theorem fetchObservations_served_from_cache date w elapsed payload d date' :
  localMidnight date ≤ localMidnight (clock w) →
  isCacheValid (cache_observations w !! key date)
    CACHE_DURATION_observations (clock w) = false →
  remote (urlO date) (clock w) = (elapsed, reply_ok payload) →
  key date' = key date →
  d < CACHE_DURATION_observations →
  localMidnight date' ≤ localMidnight (clock w + elapsed + d) →
  fst (fetchO date w) = Resolved payload
  ∧ fetchO date' (later d (snd (fetchO date w)))
    = (Resolved payload, later d (snd (fetchO date w))).
Proof.
  intros Hday Hcache Hremote Hkey Hd Hday'.
  rewrite (fetchObservations_success date w elapsed payload) by done.
  split; [done|]. unfold fetchObservations at 1. simpl.
  destruct (localMidnight (clock w + elapsed + d) <? localMidnight date')
    eqn:E; [lia|].
  rewrite Hkey, lookup_insert_eq. simpl.
  destruct (clock w + elapsed + d - (clock w + elapsed)
            <? CACHE_DURATION_observations) eqn:A; [done | lia].
Qed.

(** X19.  The cached observations expire: fifteen minutes or more after
    the answer of a successful fetch, a fetch for the same instant goes to
    the network again. *)
Theorem fetchObservations_cache_expires date w elapsed payload d :
  localMidnight date ≤ localMidnight (clock w) →
  isCacheValid (cache_observations w !! key date)
    CACHE_DURATION_observations (clock w) = false →
  remote (urlO date) (clock w) = (elapsed, reply_ok payload) →
  CACHE_DURATION_observations ≤ d →
  localMidnight date ≤ localMidnight (clock w + elapsed + d) →
  requests (snd (fetchO date (later d (snd (fetchO date w)))))
  = requests w ++ [urlO date; urlO date].
Proof.
  intros Hday Hcache Hremote Hd Hday'.
  rewrite (fetchObservations_success date w elapsed payload) by done.
  rewrite (fetchObservations_requests localMidnight localEndOfDay toISOString
             remote).
  - simpl. by rewrite <- app_assoc.
  - done.
  - simpl. rewrite lookup_insert_eq. simpl. lia.
Qed.

(** X20.  A failed fetch caches nothing: when the remote source answers
    with a status that is not ok, [fetchObservations] rejects with the
    message [API Error: <status> <text>], leaves the cache as it was and
    logs one line; a retry at any later time goes to the network again. *)
Theorem fetchObservations_failure_not_cached date w elapsed code text d :
  localMidnight date ≤ localMidnight (clock w) →
  isCacheValid (cache_observations w !! key date)
    CACHE_DURATION_observations (clock w) = false →
  remote (urlO date) (clock w) = (elapsed, reply_not_ok code text) →
  0 ≤ elapsed + d →
  localMidnight date ≤ localMidnight (clock w + elapsed + d) →
  fst (fetchO date w)
  = Rejected ("API Error: " +:+ pretty code +:+ " " +:+ text)
  ∧ cache_observations (snd (fetchO date w)) = cache_observations w
  ∧ length (console (snd (fetchO date w))) = S (length (console w))
  ∧ requests (snd (fetchO date (later d (snd (fetchO date w)))))
    = requests w ++ [urlO date; urlO date].
Proof.
  intros Hday Hcache Hremote Hd Hday'.
  assert (E : fetchO date w
    = (Rejected ("API Error: " +:+ pretty code +:+ " " +:+ text),
       {| clock := clock w + elapsed;
          cache_observations := cache_observations w;
          requests := requests w ++ [urlO date];
          console :=
            console w ++ ["Error fetching observations: "
                          +:+ ("API Error: " +:+ pretty code +:+ " " +:+ text)] |})).
  { unfold fetchObservations.
    destruct (localMidnight (clock w) <? localMidnight date) eqn:G; [lia|].
    rewrite Hcache. unfold request_observations. by rewrite Hremote. }
  rewrite E. simpl. repeat split; try done.
  - rewrite length_app. simpl. lia.
  - rewrite (fetchObservations_requests localMidnight localEndOfDay
               toISOString remote).
    + simpl. by rewrite <- app_assoc.
    + done.
    + simpl. unfold isCacheValid in *.
      destruct (cache_observations w !! key date) as [c|]; [|done]. lia.
Qed.

(** X21.  One call of [fetchObservations] issues at most one request, only
    ever adds to the requests, and touches no cache entry but the one of
    the requested date. *)
Theorem fetchObservations_footprint date w :
  (∃ extra,
     requests
       (snd (fetchObservations localMidnight localEndOfDay toISOString remote
               date w))
     = requests w ++ extra
     ∧ (length extra ≤ 1)%nat)
  ∧ ∀ k, k ≠ getCacheKey toISOString date →
      cache_observations
        (snd (fetchObservations localMidnight localEndOfDay toISOString remote
                date w)) !! k
      = cache_observations w !! k.
Proof.
  unfold fetchObservations.
  destruct (localMidnight (clock w) <? localMidnight date).
  { split; [|done]. exists []. split; [by rewrite app_nil_r | simpl; lia]. }
  destruct (isCacheValid _ _ _).
  { split; [|done]. exists []. split; [by rewrite app_nil_r | simpl; lia]. }
  unfold request_observations.
  destruct (remote _ _) as [elapsed [payload | code text | msg]]; simpl;
    (split; [eexists [_]; split; [done | simpl; lia]
            | intros k Hk; by rewrite ?lookup_insert_ne]).
Qed.

Lemma fetchPredictions_success date c elapsed payload :
  isCacheValid (cache_predictions c !! key date)
    CACHE_DURATION_predictions (clock (net c)) = false →
  remote (urlP date) (clock (net c)) = (elapsed, reply_ok payload) →
  fetchP date c
  = (Resolved payload,
     {| net := {| clock := clock (net c) + elapsed;
                  cache_observations := cache_observations (net c);
                  requests := requests (net c) ++ [urlP date];
                  console := console (net c) |};
        cache_predictions :=
          <[key date := {| timestamp := clock (net c) + elapsed;
                           data := payload |}]> (cache_predictions c) |}).
Proof.
  intros Hcache Hremote. unfold fetchPredictions. rewrite Hcache.
  unfold request_predictions. by rewrite Hremote.
Qed.

(** X22.  Predictions are fetched for any date, future ones included, and
    cached for 24 hours: a fetch that finds no fresh entry goes to the
    network whatever the date; after it succeeded, a fetch with the same
    cache key less than 24 hours after the answer resolves to the same
    samples and changes nothing. *)
Theorem fetchPredictions_served_from_cache date c elapsed payload d date' :
  isCacheValid (cache_predictions c !! key date)
    CACHE_DURATION_predictions (clock (net c)) = false →
  remote (urlP date) (clock (net c)) = (elapsed, reply_ok payload) →
  key date' = key date →
  d < CACHE_DURATION_predictions →
  fst (fetchP date c) = Resolved payload
  ∧ requests (net (snd (fetchP date c))) = requests (net c) ++ [urlP date]
  ∧ fetchP date' (later_on d (snd (fetchP date c)))
    = (Resolved payload, later_on d (snd (fetchP date c))).
Proof.
  intros Hcache Hremote Hkey Hd.
  rewrite (fetchPredictions_success date c elapsed payload) by done.
  split; [done|]. split; [done|]. unfold fetchPredictions at 1. simpl.
  rewrite Hkey, lookup_insert_eq. simpl.
  destruct (clock (net c) + elapsed + d - (clock (net c) + elapsed)
            <? CACHE_DURATION_predictions) eqn:A; [done | lia].
Qed.

(** X23.  A forced refresh reaches the network: after [clearCache] a
    prediction fetch issues its request for any date, and an observation
    fetch issues its request for any date that is not in the future. *)
Theorem clearCache_forces_requests date c :
  requests (net (snd (fetchP date (clearCache c))))
  = requests (net c) ++ [urlP date]
  ∧ (localMidnight date ≤ localMidnight (clock (net c)) →
     requests (net (snd (fetchOc date (clearCache c))))
     = requests (net c) ++ [urlO date]).
Proof.
  split.
  - unfold fetchPredictions, clearCache. simpl. rewrite lookup_empty. simpl.
    unfold request_predictions. simpl.
    by destruct (remote _ _) as [elapsed [payload | code text | msg]].
  - intros Hday. unfold fetchObservations_on.
    pose proof (fetchObservations_requests localMidnight localEndOfDay
                  toISOString remote date (net (clearCache c))) as H.
    destruct (fetchO date (net (clearCache c))) as [r w'] eqn:F. simpl in *.
    apply H; [done|]. by rewrite lookup_empty.
Qed.
End DataSourceMore.

(** The data source on the UTC host. *)

Lemma fetchObservations_served_from_cache_witness :
  fst (fetchObservations utc_midnight utc_end_of_day day_number silent_remote
         (clock noon_world) noon_world) = Resolved []
  ∧ fetchObservations utc_midnight utc_end_of_day day_number silent_remote
      (clock noon_world + 1000)
      (later 60000
         (snd (fetchObservations utc_midnight utc_end_of_day day_number
                 silent_remote (clock noon_world) noon_world)))
    = (Resolved [],
       later 60000
         (snd (fetchObservations utc_midnight utc_end_of_day day_number
                 silent_remote (clock noon_world) noon_world))).
Proof.
  apply (fetchObservations_served_from_cache utc_midnight utc_end_of_day
           day_number silent_remote (clock noon_world) noon_world 120 []
           60000 (clock noon_world + 1000));
    by_evaluation.
Defined.

Lemma fetchObservations_cache_expires_witness :
  requests
    (snd (fetchObservations utc_midnight utc_end_of_day day_number
            silent_remote (clock noon_world)
            (later 900000
               (snd (fetchObservations utc_midnight utc_end_of_day day_number
                       silent_remote (clock noon_world) noon_world)))))
  = requests noon_world
      ++ [ observations_url utc_midnight utc_end_of_day day_number
             (clock noon_world);
           observations_url utc_midnight utc_end_of_day day_number
             (clock noon_world) ].
Proof.
  apply (fetchObservations_cache_expires utc_midnight utc_end_of_day
           day_number silent_remote (clock noon_world) noon_world 120 []
           900000);
    by_evaluation.
Defined.

Lemma fetchObservations_failure_not_cached_witness :
  fst (fetchObservations utc_midnight utc_end_of_day day_number failing_remote
         (clock noon_world) noon_world)
  = Rejected ("API Error: " +:+ pretty 503 +:+ " " +:+ "Service Unavailable")
  ∧ cache_observations
      (snd (fetchObservations utc_midnight utc_end_of_day day_number
              failing_remote (clock noon_world) noon_world))
    = cache_observations noon_world
  ∧ length
      (console
         (snd (fetchObservations utc_midnight utc_end_of_day day_number
                 failing_remote (clock noon_world) noon_world)))
    = S (length (console noon_world))
  ∧ requests
      (snd (fetchObservations utc_midnight utc_end_of_day day_number
              failing_remote (clock noon_world)
              (later 1000
                 (snd (fetchObservations utc_midnight utc_end_of_day
                         day_number failing_remote (clock noon_world)
                         noon_world)))))
    = requests noon_world
        ++ [ observations_url utc_midnight utc_end_of_day day_number
               (clock noon_world);
             observations_url utc_midnight utc_end_of_day day_number
               (clock noon_world) ].
Proof.
  apply (fetchObservations_failure_not_cached utc_midnight utc_end_of_day
           day_number failing_remote (clock noon_world) noon_world 80 503
           "Service Unavailable" 1000);
    by_evaluation.
Defined.

Lemma fetchObservations_footprint_witness :
  cache_observations
    (snd (fetchObservations utc_midnight utc_end_of_day day_number
            silent_remote (clock noon_world) noon_world)) !! "day1"
  = cache_observations noon_world !! "day1".
Proof.
  apply (proj2 (fetchObservations_footprint utc_midnight utc_end_of_day
                  day_number silent_remote (clock noon_world) noon_world)).
  by_evaluation.
Defined.

Lemma fetchPredictions_served_from_cache_witness :
  fst (fetchPredictions utc_midnight utc_end_of_day day_number silent_remote
         (clock noon_world + msPerDay) noon_client) = Resolved []
  ∧ requests
      (net (snd (fetchPredictions utc_midnight utc_end_of_day day_number
                   silent_remote (clock noon_world + msPerDay) noon_client)))
    = requests (net noon_client)
        ++ [ predictions_url utc_midnight utc_end_of_day day_number
               (clock noon_world + msPerDay) ]
  ∧ fetchPredictions utc_midnight utc_end_of_day day_number silent_remote
      (clock noon_world + msPerDay)
      (later_on 3600000
         (snd (fetchPredictions utc_midnight utc_end_of_day day_number
                 silent_remote (clock noon_world + msPerDay) noon_client)))
    = (Resolved [],
       later_on 3600000
         (snd (fetchPredictions utc_midnight utc_end_of_day day_number
                 silent_remote (clock noon_world + msPerDay) noon_client))).
Proof.
  apply (fetchPredictions_served_from_cache utc_midnight utc_end_of_day
           day_number silent_remote (clock noon_world + msPerDay) noon_client
           120 [] 3600000 (clock noon_world + msPerDay));
    by_evaluation.
Defined.

Lemma clearCache_forces_requests_witness :
  requests
    (net (snd (fetchObservations_on utc_midnight utc_end_of_day day_number
                 silent_remote (clock noon_world) (clearCache noon_client))))
  = requests (net noon_client)
      ++ [ observations_url utc_midnight utc_end_of_day day_number
             (clock noon_world) ].
Proof.
  apply (proj2 (clearCache_forces_requests utc_midnight utc_end_of_day
                  day_number silent_remote (clock noon_world) noon_client)).
  by_evaluation.
Defined.

(** ** The table of ui.js *)

Lemma Math_round_bounds (a b : Z) (x : Q) :
  (inject_Z a <= x)%Q → (x <= inject_Z b)%Q → a ≤ Math_round x ≤ b.
Proof.
  intros Ha Hb. unfold Math_round. split.
  - rewrite <- (Qfloor_Z a). apply Qfloor_resp_le. lra.
  - pose proof (Qfloor_le (x + (1 # 2))) as H.
    assert (inject_Z (Qfloor (x + (1 # 2))) < inject_Z (b + 1))%Q as Hlt.
    { rewrite inject_Z_plus. change (inject_Z 1) with 1%Q. lra. }
    rewrite <- Zlt_Qlt in Hlt. lia.
Qed.

Lemma Math_max_fold (xs : list Q) (y : Q) :
  ∃ m, foldl (λ m x, match m with
                      | None => Some x
                      | Some y => Some (if Qltb y x then x else y)
                      end) (Some y) xs = Some m
       ∧ (y <= m)%Q ∧ ∀ x, x ∈ xs → (x <= m)%Q.
Proof.
  revert y. induction xs as [|x xs IH]; intros y.
  - exists y. split; [done|]. split; [apply Qle_refl|].
    intros x Hx. by apply elem_of_nil in Hx.
  - simpl. destruct (Qltb y x) eqn:E.
    + destruct (IH x) as (m & -> & Hm & Hall). exists m. split; [done|].
      apply Qltb_true in E. split; [lra|].
      intros z Hz. apply elem_of_cons in Hz as [-> | Hz]; [done | by apply Hall].
    + destruct (IH y) as (m & -> & Hm & Hall). exists m. split; [done|].
      apply Qltb_false in E. split; [done|].
      intros z Hz. apply elem_of_cons in Hz as [-> | Hz]; [lra | by apply Hall].
Qed.

Lemma Math_max_upper (xs : list Q) (x : Q) :
  x ∈ xs → ∃ m, Math_max xs = Some m ∧ (x <= m)%Q.
Proof.
  destruct xs as [|y xs]; [intros H; by apply elem_of_nil in H|].
  intros Hx. unfold Math_max. simpl.
  destruct (Math_max_fold xs y) as (m & -> & Hy & Hall). exists m.
  split; [done|]. apply elem_of_cons in Hx as [-> | Hx]; [done | by apply Hall].
Qed.

Lemma min_one_range (z : Q) : (0 <= z)%Q → (0 <= min_one z)%Q ∧ (min_one z <= 1)%Q.
Proof.
  intros Hz. unfold min_one. destruct (Qleb 1 z) eqn:E.
  - split; by_evaluation.
  - apply Qleb_false in E. split; [done | lra].
Qed.

Lemma base_cases (even : bool) (a b : Z) :
  (if even then a else b) = a ∨ (if even then a else b) = b.
Proof. destruct even; auto. Qed.

(** X24.  The colour of a table row is a colour: for every row of
    [renderTideTable] whose prediction is not negative, the three numbers
    that [getGradientColor] prints into [rgb(...)] are between 0 and
    255. *)
Theorem row_channels_in_range series index e :
  e ∈ series → (0 <= prediction e)%Q →
  ∃ r g b,
    row_channels series index e = Some (r, g, b)
    ∧ 0 ≤ r ≤ 255 ∧ 0 ≤ g ≤ 255 ∧ 0 ≤ b ≤ 255.
Proof.
  intros He Hpos. unfold row_channels.
  destruct (Math_max_upper (prediction <$> series) (prediction e))
    as (m & -> & Hm).
  { apply list_elem_of_fmap. by exists e. }
  unfold gradient_channels, getAccessibilityLevel.
  set (t := prediction e) in *.
  destruct (Qleb t accessThreshold) eqn:A.
  - apply Qleb_true in A. unfold accessThreshold in *.
    assert (t / 1.1 == t * (10 # 11))%Q as En by field.
    assert (100 ≤ Math_round (100 + t / 1.1 * 120) ≤ 220)
      by (apply Math_round_bounds; rewrite En;
          [change (inject_Z 100) with 100%Q | change (inject_Z 220) with 220%Q];
          lra).
    assert (0 ≤ Math_round (t / 1.1 * 100) ≤ 100)
      by (apply Math_round_bounds; rewrite En;
          [change (inject_Z 0) with 0%Q | change (inject_Z 100) with 100%Q];
          lra).
    eexists _, _, _. split; [reflexivity|].
    destruct (base_cases (Nat.even index) 0 10) as [-> | ->]; lia.
  - apply Qleb_false in A. unfold accessThreshold in *.
    destruct (Qleb t 1.5) eqn:B.
    + apply Qleb_true in B.
      assert ((t - 1.1) / 0.4 == (t - 1.1) * (5 # 2))%Q as Eo by field.
      assert (150 ≤ Math_round (200 - (t - 1.1) / 0.4 * 50) ≤ 200)
        by (apply Math_round_bounds; rewrite Eo;
            [change (inject_Z 150) with 150%Q
            | change (inject_Z 200) with 200%Q]; lra).
      eexists _, _, _. split; [reflexivity|].
      destruct (base_cases (Nat.even index) 0 (-10)) as [-> | ->]; lia.
    + apply Qleb_false in B.
      destruct (min_one_range ((t - 1.1) / (m - 1.1))) as [Hp0 Hp1].
      { unfold Qdiv. apply Qmult_le_0_compat; [lra|].
        apply Qinv_le_0_compat. lra. }
      set (p := min_one ((t - 1.1) / (m - 1.1))) in *.
      assert (210 ≤ Math_round (210 + p * 45) ≤ 255)
        by (apply Math_round_bounds;
            [change (inject_Z 210) with 210%Q
            | change (inject_Z 255) with 255%Q]; lra).
      assert (215 ≤ Math_round (255 - p * 40) ≤ 255)
        by (apply Math_round_bounds;
            [change (inject_Z 215) with 215%Q
            | change (inject_Z 255) with 255%Q]; lra).
      eexists _, _, _. split; [reflexivity|].
      destruct (base_cases (Nat.even index) 0 (-5)) as [-> | ->]; lia.
Qed.

Lemma row_channels_in_range_witness :
  ∃ r g b,
    row_channels morning 2 (sample 8 30 "08:30 AM" 0.9) = Some (r, g, b)
    ∧ 0 ≤ r ≤ 255 ∧ 0 ≤ g ≤ 255 ∧ 0 ≤ b ≤ 255.
Proof.
  apply row_channels_in_range; [do 2 right; by left | by_evaluation].
Defined.

(** A height below zero gives a channel below zero. *)
Example row_channels_negative_tide :
  row_channels [sample 8 0 "08:00 AM" (-0.2)] 0 (sample 8 0 "08:00 AM" (-0.2))
  = Some (-18, 78, -18).
Proof. reflexivity. Qed.

Lemma isCurrentTime_spec vt now series i e :
  isCurrentTime vt now series i e = true →
  vt = true ∧ time e ≤ now
  ∧ ((i = length series - 1)%nat
     ∨ ∃ next, series !! S i = Some next ∧ now < time next).
Proof.
  unfold isCurrentTime. rewrite !andb_true_iff, orb_true_iff.
  intros [[-> Ht] Hn]. split; [done|]. split; [lia|].
  destruct Hn as [Hn | Hn].
  - left. by apply Nat.eqb_eq.
  - right. destruct (series !! S i) as [next|]; [|done]. exists next.
    split; [done | lia].
Qed.

(** X26.  The arrow of the header belongs to the highlighted row: in a
    table ordered by time, when the row highlighted by [isCurrentTime] has
    a next row, [getTideTrend] is the trend from the highlighted row to the
    next, and when it is the last row [getTideTrend] is unknown. *)
Theorem trend_of_current_row now series i e clock :
  ordered_by_time series = true →
  series !! i = Some e →
  isCurrentTime true now series i e = true →
  (∀ next, series !! S i = Some next →
     getTideTrend series (Some now) clock = trend_of e next)
  ∧ (series !! S i = None →
     getTideTrend series (Some now) clock = unknown_trend).
Proof.
  intros Hord Hi C. apply isCurrentTime_spec in C as (_ & Ht & Hn).
  pose proof (lookup_lt_Some _ _ _ Hi) as Hlen. split.
  - intros next Hnext.
    assert (Hb : brackets now e next).
    { destruct Hn as [Hn | (next' & Hnext' & Hnow)].
      - apply lookup_lt_Some in Hnext. lia.
      - rewrite Hnext in Hnext'. injection Hnext' as <-. by split. }
    apply (trend_first_bracket series (Some now) clock i e next Hi Hnext Hb).
    by apply (ordered_bracket_first series now i e next).
  - intros Hlast. apply trend_no_bracket. simpl.
    intros k x y Hx Hy [_ Hy'].
    apply lookup_ge_None in Hlast.
    assert (time y ≤ time e).
    { apply (ordered_lookup_le series (S k) i); [done | done | done |].
      apply lookup_lt_Some in Hy. lia. }
    lia.
Qed.

Lemma trend_of_current_row_witness :
  getTideTrend morning (Some (at_clock 8 35)) 0
  = trend_of (sample 8 30 "08:30 AM" 0.9) (sample 8 45 "08:45 AM" 1.0)
  ∧ getTideTrend morning (Some (at_clock 9 10)) 0 = unknown_trend.
Proof.
  split.
  - apply (proj1 (trend_of_current_row (at_clock 8 35) morning 2
                    (sample 8 30 "08:30 AM" 0.9) 0 eq_refl eq_refl eq_refl)).
    reflexivity.
  - apply (proj2 (trend_of_current_row (at_clock 9 10) morning 4
                    (sample 9 0 "09:00 AM" 1.2) 0 eq_refl eq_refl eq_refl)).
    reflexivity.
Defined.

(** ** The window list of ui.js *)

(** X27.  The duration printed for a window of a series ordered by time:
    hours and minutes are not negative, the minutes are at most 60, and
    together they are within half a minute of [end - start]; when [start]
    and [end] are on whole minutes the minutes are below 60 and the
    duration is exact. *)
Theorem duration_parts_of_window series w :
  ordered_by_time series = true → w ∈ findAccessWindows series →
  ∃ hours minutes,
    duration_parts w = (hours, minutes)
    ∧ 0 ≤ hours ∧ 0 ≤ minutes ≤ 60
    ∧ -30000 < (hours * 60 + minutes) * 60000 - (w_end w - start w) ≤ 30000
    ∧ ((60000 | start w) → (60000 | w_end w) →
       minutes < 60
       ∧ (hours * 60 + minutes) * 60000 = w_end w - start w).
Proof.
  intros Hord Hw. pose proof (window_start_le_end series w Hord Hw) as Hle.
  unfold duration_parts, js_rem. set (d := w_end w - start w).
  assert (Hd : 0 ≤ d) by (unfold d; lia).
  change (1000 * 60 * 60) with 3600000. change (1000 * 60) with 60000.
  rewrite Z.rem_mod_nonneg by lia.
  pose proof (Z.mod_pos_bound d 3600000 ltac:(lia)) as Hr.
  pose proof (Z.div_mod d 3600000 ltac:(lia)) as Hdm.
  set (r := d mod 3600000) in *.
  set (q := (inject_Z r / inject_Z 60000)%Q).
  pose proof (Qfloor_le (q + (1 # 2))) as H1.
  pose proof (Qlt_floor (q + (1 # 2))) as H2.
  change (Qfloor (q + (1 # 2))) with (Math_round q) in H1, H2.
  set (m := Math_round q) in *.
  rewrite inject_Z_plus in H2. change (inject_Z 1) with 1%Q in H2.
  assert (Eq : (q == inject_Z r * (1 # 60000))%Q)
    by (unfold q; change (inject_Z 60000) with (60000 # 1)%Q; field).
  rewrite Eq in H1, H2.
  assert (Hlo : (inject_Z (60000 * m) <= inject_Z (r + 30000))%Q).
  { rewrite inject_Z_mult, inject_Z_plus.
    change (inject_Z 60000) with 60000%Q. change (inject_Z 30000) with 30000%Q.
    lra. }
  assert (Hhi : (inject_Z (r + 30000) < inject_Z (60000 * m + 60000))%Q).
  { rewrite !inject_Z_plus, inject_Z_mult.
    change (inject_Z 60000) with 60000%Q. change (inject_Z 30000) with 30000%Q.
    lra. }
  rewrite <- Zle_Qle in Hlo. rewrite <- Zlt_Qlt in Hhi.
  assert (0 ≤ d / 3600000) by (apply Z.div_pos; lia).
  exists (d / 3600000), m. split; [done|].
  split; [lia|]. split; [lia|]. split; [lia|].
  intros [a Ha] [b Hb].
  assert (Hdiv : d = (b - a) * 60000) by (unfold d; lia).
  assert (r = (b - a - 60 * (d / 3600000)) * 60000) by lia. lia.
Qed.

Lemma duration_parts_of_window_witness :
  ∃ hours minutes,
    duration_parts morning_window = (hours, minutes)
    ∧ 0 ≤ hours ∧ 0 ≤ minutes ≤ 60
    ∧ -30000 < (hours * 60 + minutes) * 60000
               - (w_end morning_window - start morning_window) ≤ 30000
    ∧ minutes < 60
    ∧ (hours * 60 + minutes) * 60000
      = w_end morning_window - start morning_window.
Proof.
  destruct (duration_parts_of_window morning morning_window eq_refl
              ltac:(by left)) as (h & m & E & Hh & Hm & Hd & Hexact).
  exists h, m. split; [done|]. split; [done|]. split; [done|]. split; [done|].
  apply Hexact; [by exists 495 | by exists 525].
Defined.

(** ** The rows and the status as the code computes them *)

(** X28.  The row that [mergeTideData] builds for a prediction on the
    quarter-hour grid has the instant, the label and the value of the
    prediction; it carries the value of the last grid observation of the
    same bucket when that value is not zero, and no observation when there
    is no such observation or when its value is zero. *)
Theorem mergeTideData_row_of_prediction LocalTZA toLocaleTimeString
    (predictions observations : list RawSample) (i : nat) (pred : RawSample) :
  filterQuarterHour LocalTZA predictions !! i = Some pred →
  ∃ row,
    mergeTideData LocalTZA toLocaleTimeString predictions observations !! i
    = Some row
    ∧ time row = eventDate pred
    ∧ timeString row = toLocaleTimeString (eventDate pred)
    ∧ prediction row = value pred
    ∧ (∀ v, matching_observation LocalTZA observations pred = Some v →
            ¬ (v == 0)%Q → observation row = Some v)
    ∧ (matching_observation LocalTZA observations pred = None →
       observation row = None)
    ∧ (∀ v, matching_observation LocalTZA observations pred = Some v →
            (v == 0)%Q → observation row = None).
Proof.
  intros Hi. rewrite mergeTideData_rows.
  eexists. split.
  { change (map ?f ?l) with (f <$> l). rewrite list_lookup_fmap, Hi.
    reflexivity. }
  simpl. repeat split; apply num_or_null_cases.
Qed.

Lemma mergeTideData_row_of_prediction_witness :
  ∃ row,
    mergeTideData utc eight_am
      [ {| eventDate := at_clock 8 0; value := 1.5 |} ]
      [ {| eventDate := at_clock 8 0; value := 1.4 |} ] !! 0%nat
    = Some row
    ∧ time row = at_clock 8 0
    ∧ timeString row = "08:00 AM"
    ∧ prediction row = 1.5%Q
    ∧ (∀ v, matching_observation utc
              [ {| eventDate := at_clock 8 0; value := 1.4 |} ]
              {| eventDate := at_clock 8 0; value := 1.5 |} = Some v →
            ¬ (v == 0)%Q → observation row = Some v)
    ∧ (matching_observation utc
         [ {| eventDate := at_clock 8 0; value := 1.4 |} ]
         {| eventDate := at_clock 8 0; value := 1.5 |} = None →
       observation row = None)
    ∧ (∀ v, matching_observation utc
              [ {| eventDate := at_clock 8 0; value := 1.4 |} ]
              {| eventDate := at_clock 8 0; value := 1.5 |} = Some v →
            (v == 0)%Q → observation row = None).
Proof.
  apply (mergeTideData_row_of_prediction utc eight_am
           [ {| eventDate := at_clock 8 0; value := 1.5 |} ]
           [ {| eventDate := at_clock 8 0; value := 1.4 |} ] 0%nat
           {| eventDate := at_clock 8 0; value := 1.5 |}).
  reflexivity.
Defined.

(** X29.  On a non-empty series [getCurrentAccessStatus] reports the first
    sample at the least distance from [now]; its tide is the observation
    of that sample when there is one and it is not zero, and the
    prediction when the observation is missing or zero; [accessible] holds
    exactly when that tide is at or below 1.1, and the status says the
    same. *)
Theorem getCurrentAccessStatus_effective_tide series currentTime clock :
  series ≠ [] →
  ∃ i c t,
    series !! i = Some c
    ∧ (∀ e, e ∈ series →
         Z.abs (time c - resolveNow currentTime clock)
         ≤ Z.abs (time e - resolveNow currentTime clock))
    ∧ (∀ k e, (k < i)%nat → series !! k = Some e →
         Z.abs (time c - resolveNow currentTime clock)
         < Z.abs (time e - resolveNow currentTime clock))
    ∧ entry (getCurrentAccessStatus series currentTime clock) = Some c
    ∧ tide (getCurrentAccessStatus series currentTime clock) = Some t
    ∧ (∀ v, observation c = Some v → ¬ (v == 0)%Q → t = v)
    ∧ (observation c = None → t = prediction c)
    ∧ (∀ v, observation c = Some v → (v == 0)%Q → t = prediction c)
    ∧ (accessible (getCurrentAccessStatus series currentTime clock) = true
       ↔ (t <= accessThreshold)%Q)
    ∧ status (getCurrentAccessStatus series currentTime clock)
      = getAccessibilityLevel t.
Proof.
  intros Hne.
  destruct (find_closest_nearest (resolveNow currentTime clock) series Hne)
    as (i & c & Hc & Hi & Hmin & Hfirst).
  exists i, c, (num_or (observation c) (prediction c)).
  destruct (num_or_cases (observation c) (prediction c)) as (N1 & N2 & N3).
  unfold getCurrentAccessStatus, getAccessibilityLevel. rewrite Hc.
  destruct (Qleb _ accessThreshold) eqn:E; simpl.
  - apply Qleb_true in E. repeat split; done.
  - apply Qleb_false in E. repeat split; try done.
    intros Hle. exfalso. by apply (Qlt_not_le _ _ E).
Qed.

Lemma getCurrentAccessStatus_effective_tide_witness :
  ∃ i c t,
    [zero_observed] !! i = Some c
    ∧ (∀ e, e ∈ [zero_observed] →
         Z.abs (time c - resolveNow (Some (at_clock 8 0)) 0)
         ≤ Z.abs (time e - resolveNow (Some (at_clock 8 0)) 0))
    ∧ (∀ k e, (k < i)%nat → [zero_observed] !! k = Some e →
         Z.abs (time c - resolveNow (Some (at_clock 8 0)) 0)
         < Z.abs (time e - resolveNow (Some (at_clock 8 0)) 0))
    ∧ entry (getCurrentAccessStatus [zero_observed] (Some (at_clock 8 0)) 0)
      = Some c
    ∧ tide (getCurrentAccessStatus [zero_observed] (Some (at_clock 8 0)) 0)
      = Some t
    ∧ (∀ v, observation c = Some v → ¬ (v == 0)%Q → t = v)
    ∧ (observation c = None → t = prediction c)
    ∧ (∀ v, observation c = Some v → (v == 0)%Q → t = prediction c)
    ∧ (accessible
         (getCurrentAccessStatus [zero_observed] (Some (at_clock 8 0)) 0)
       = true ↔ (t <= accessThreshold)%Q)
    ∧ status (getCurrentAccessStatus [zero_observed] (Some (at_clock 8 0)) 0)
      = getAccessibilityLevel t.
Proof. apply getCurrentAccessStatus_effective_tide. discriminate. Defined.

(** ** The highlighted row, further *)

Lemma isCurrentTime_shift vt now a b rest i e :
  isCurrentTime vt now (a :: b :: rest) (S i) e
  = isCurrentTime vt now (b :: rest) i e.
Proof.
  unfold isCurrentTime. simpl. by rewrite Nat.sub_0_r.
Qed.

Lemma current_row_exists now series first :
  head series = Some first → time first ≤ now →
  ∃ i e, series !! i = Some e ∧ isCurrentTime true now series i e = true.
Proof.
  revert first. induction series as [|a s IH]; intros first Hf Hnow; [done|].
  simpl in Hf. injection Hf as ->. destruct s as [|b s].
  - exists 0%nat, first. split; [done|]. unfold isCurrentTime. simpl.
    apply andb_true_iff. split; [lia | done].
  - destruct (decide (now < time b)) as [Hlt | Hge].
    + exists 0%nat, first. split; [done|]. unfold isCurrentTime. simpl.
      rewrite !andb_true_iff. lia.
    + destruct (IH b eq_refl ltac:(lia)) as (i & e & Hi & Hc).
      exists (S i), e. split; [done|]. by rewrite isCurrentTime_shift.
Qed.

(** X25.  When today's table is ordered by time and [now] is at or after
    its first row, exactly one row is highlighted as the current one;
    before the first row none is. *)
Theorem current_row_exactly_one now series first :
  ordered_by_time series = true → head series = Some first →
  (time first ≤ now →
   ∃ i e,
     series !! i = Some e ∧ isCurrentTime true now series i e = true
     ∧ ∀ j ej, series !! j = Some ej →
         isCurrentTime true now series j ej = true → j = i)
  ∧ (now < time first →
     ∀ j ej, series !! j = Some ej →
       isCurrentTime true now series j ej = false).
Proof.
  intros Hord Hf. split.
  - intros Hnow. destruct (current_row_exists now series first Hf Hnow)
      as (i & e & Hi & Hc).
    exists i, e. split; [done|]. split; [done|]. intros j ej Hj Cj.
    apply isCurrentTime_spec in Hc as (_ & Hti & Hni).
    apply isCurrentTime_spec in Cj as (_ & Htj & Hnj).
    pose proof (lookup_lt_Some _ _ _ Hi). pose proof (lookup_lt_Some _ _ _ Hj).
    destruct (lt_eq_lt_dec i j) as [[Hlt | Heq] | Hgt]; [|done|]; exfalso.
    + destruct Hni as [Hni | (next & Hnext & Hn)]; [lia|].
      pose proof (ordered_lookup_le series (S i) j next ej Hord Hnext Hj). lia.
    + destruct Hnj as [Hnj | (next & Hnext & Hn)]; [lia|].
      pose proof (ordered_lookup_le series (S j) i next e Hord Hnext Hi). lia.
  - intros Hnow j ej Hj.
    destruct (isCurrentTime true now series j ej) eqn:C; [|done]. exfalso.
    apply isCurrentTime_spec in C as (_ & Ht & _).
    assert (time first ≤ time ej).
    { apply (ordered_lookup_le series 0 j); [done | | done | lia].
      by rewrite <- head_lookup. }
    lia.
Qed.

Lemma current_row_exactly_one_witness :
  (∃ i e,
     morning !! i = Some e
     ∧ isCurrentTime true (at_clock 8 35) morning i e = true
     ∧ ∀ j ej, morning !! j = Some ej →
         isCurrentTime true (at_clock 8 35) morning j ej = true → j = i)
  ∧ isCurrentTime true (at_clock 7 0) morning 0
      (sample 8 0 "08:00 AM" 1.3) = false.
Proof.
  split.
  - apply (proj1 (current_row_exactly_one (at_clock 8 35) morning
                    (sample 8 0 "08:00 AM" 1.3) eq_refl eq_refl)).
    by_evaluation.
  - apply (proj2 (current_row_exactly_one (at_clock 7 0) morning
                    (sample 8 0 "08:00 AM" 1.3) eq_refl eq_refl));
      by_evaluation.
Defined.

(** ** What is printed, on the scenarios *)

Example formatCountdown_hours : formatCountdown 4500000 = "1h 15m".
Proof. reflexivity. Qed.

Example formatCountdown_minutes : formatCountdown 1500000 = "25m 0s".
Proof. reflexivity. Qed.

Example formatCountdown_seconds : formatCountdown 59999 = "59s".
Proof. reflexivity. Qed.

(** A time below zero, which [getCountdown] never produces, is printed
    with its sign. *)
Example formatCountdown_negative : formatCountdown (-1) = "-1s".
Proof. reflexivity. Qed.

Example durationStr_morning : durationStr morning_window = "30m".
Proof. reflexivity. Qed.

(** A window of a single sample lasts no time. *)
Example durationStr_single_sample :
  durationStr (open_window (sample 6 0 "06:00 AM" 1.0)) = "0m".
Proof. reflexivity. Qed.

Example getGradientColor_accessible :
  getGradientColor 0.9 accessible_status 1.3 2 = "rgb(82, 198, 82)".
Proof. reflexivity. Qed.

Example getGradientColor_orange :
  getGradientColor 1.3 not_accessible 1.3 0 = "rgb(255, 175, 100)".
Proof. reflexivity. Qed.
